(** * Font resolution and metrics extraction of [font_properties.py]

    A shallow embedding of the font resolver ([FontConfig]), of the numeric
    nearest-match lookup ([nearest_val]) and of the metrics extractor
    ([FontTools_FontInstance]) of
    [src/scientific_inkscape/text/font_properties.py], with the properties
    the specification states about them.

    Conventions of the embedding:
    - a Python exception is a value [Raise e] of the type [result];
      state changes made before the exception are kept;
    - a character is its code point ([ord] is the identity on [N]);
    - an insertion-ordered [dict] whose iteration order matters is an
      association list; a [dict] or [set] only used through lookup and
      membership is a [gmap] or a [gset];
    - integers of the font tables and of fontconfig are [Z];
    - a Python [float] is a binary64 number of [PrimFloat], with the
      IEEE 754 operations of the kernel; the true division [a / b] of two
      integers is the division of their conversions, which is Python's
      correctly rounded quotient for integers below [2^53] in absolute
      value (the fields of font tables are 16-bit). *)

From Stdlib Require Import ZArith Floats Uint63 String Ascii List Lia.
From stdpp Require Import base option list gmap strings.

Local Open Scope string_scope.
Local Open Scope Z_scope.

(** ** Exceptions and results *)

Inductive exn : Type :=
| KeyError
| AttributeError
| TypeError
| ValueError
| IndexError
| ZeroDivisionError
| TTLibError.

Inductive result (A : Type) : Type :=
| Ok (a : A)
| Raise (e : exn).

Arguments Ok {A} a.
Arguments Raise {A} e.

Definition rbind {A B} (r : result A) (k : A -> result B) : result B :=
  match r with
  | Ok a => k a
  | Raise e => Raise e
  end.

Declare Scope res_scope.
Delimit Scope res_scope with res.
Notation "'let?' x ':=' r 'in' k" := (rbind r (fun x => k))
  (at level 10, x pattern, r at level 100, k at level 200) : res_scope.
Local Open Scope res_scope.

(** ** Python containers *)

Module Py.

(** An insertion-ordered dictionary: the entries in iteration order. *)
Definition dict (K V : Type) : Type := list (K * V).

Section Dict.
Context {K V : Type} `{EqDecision K}.

(** [d.keys()] *)
Definition keys (d : dict K V) : list K := map fst d.

(** [d.get(k)] *)
Fixpoint get (d : dict K V) (k : K) : option V :=
  match d with
  | [] => None
  | (k', v) :: d' => if decide (k' = k) then Some v else get d' k
  end.

(** [d[k]] *)
Definition getitem (d : dict K V) (k : K) : result V :=
  match get d k with
  | Some v => Ok v
  | None => Raise KeyError
  end.

(** [d.get(k, dflt)] *)
Definition get_default (d : dict K V) (k : K) (dflt : V) : V :=
  match get d k with
  | Some v => v
  | None => dflt
  end.

(** [d[k] = v]: an existing key keeps its position, a new one is
    appended. *)
Fixpoint setitem (d : dict K V) (k : K) (v : V) : dict K V :=
  match d with
  | [] => [(k, v)]
  | (k', v') :: d' =>
      if decide (k' = k) then (k', v) :: d' else (k', v') :: setitem d' k v
  end.

End Dict.

(** The scan of [min(iterable, key=f)]: the candidate is replaced only
    by a strictly smaller element, so the first minimum is kept. *)
Fixpoint min_scan {A} (f : A -> Z) (best : A) (l : list A) : A :=
  match l with
  | [] => best
  | x :: l' => if f x <? f best then min_scan f x l' else min_scan f best l'
  end.

(** [min(l, key=f)]; an empty argument raises [ValueError]. *)
Definition min_key {A} (f : A -> Z) (l : list A) : result A :=
  match l with
  | [] => Raise ValueError
  | x :: l' => Ok (min_scan f x l')
  end.

(** The scan of [max(l)]: the candidate is replaced only by a strictly
    larger element. *)
Fixpoint max_scan (best : nat) (l : list nat) : nat :=
  match l with
  | [] => best
  | x :: l' => if (best <? x)%nat then max_scan x l' else max_scan best l'
  end.

(** [max(l)]; an empty argument raises [ValueError]. *)
Definition max (l : list nat) : result nat :=
  match l with
  | [] => Raise ValueError
  | x :: l' => Ok (max_scan x l')
  end.

(** [sum(bs)] of a list of booleans. *)
Definition sum_bools (bs : list bool) : nat :=
  fold_right (fun (b : bool) n => ((if b then 1 else 0) + n)%nat) 0%nat bs.

(** [float(z)] of an integer below [2^63] in absolute value. *)
Definition float_of_int (z : Z) : float :=
  match z with
  | Z0 => PrimFloat.zero
  | Zpos _ => PrimFloat.of_uint63 (Uint63.of_Z z)
  | Zneg p => PrimFloat.opp (PrimFloat.of_uint63 (Uint63.of_Z (Zpos p)))
  end.

(** [a / b] on integers: true division, [ZeroDivisionError] on [b = 0]. *)
Definition truediv (a b : Z) : result float :=
  if decide (b = 0) then Raise ZeroDivisionError
  else Ok (PrimFloat.div (float_of_int a) (float_of_int b)).

(** [{k: v for k in ks if cond k}] with a constant value. *)
Definition dict_comp {V} (ks : list N) (cond : N -> bool) (v : V) : gmap N V :=
  fold_left (fun acc k => if cond k then <[k := v]> acc else acc) ks ∅.

(** [d.update(d2)] *)
Definition update {V} (d d2 : gmap N V) : gmap N V := d2 ∪ d.

(** [s.replace(c, "")] for a one-character [c]. *)
Definition remove_char (c : ascii) (s : string) : string :=
  string_of_list_ascii
    (List.filter (fun x => negb (Ascii.eqb x c)) (list_ascii_of_string s)).

(** [s.strip(c)] for a one-character [c]. *)
Fixpoint lstrip_chars (c : ascii) (l : list ascii) : list ascii :=
  match l with
  | x :: l' => if Ascii.eqb x c then lstrip_chars c l' else l
  | [] => []
  end.

Definition strip (c : ascii) (s : string) : string :=
  string_of_list_ascii
    (rev (lstrip_chars c (rev (lstrip_chars c (list_ascii_of_string s))))).

(** [s.lower()] on the letters A to Z. *)
Definition lower_char (c : ascii) : ascii :=
  let n := nat_of_ascii c in
  if ((65 <=? n) && (n <=? 90))%nat then ascii_of_nat (n + 32) else c.

Definition lower (s : string) : string :=
  string_of_list_ascii (map lower_char (list_ascii_of_string s)).

(** [sub in s] on strings. *)
Fixpoint contains (sub s : string) : bool :=
  if String.prefix sub s then true
  else match s with
       | EmptyString => false
       | String _ s' => contains sub s'
       end.

End Py.

(** ** Numeric nearest-match lookup *)

(** [nearest_val(dictv, width_value)] *)
Definition nearest_val {V} (dictv : Py.dict Z V) (width_value : Z) : result V :=
  let? k := Py.min_key (fun x => Z.abs (x - width_value)) (Py.keys dictv) in
  Py.getitem dictv k.

(** ** Attribute vocabularies *)

(** The enumerated values of the font-matching library ([fc.FC]), with
    the numbers of fontconfig's public header. *)
Module FC.
Definition WEIGHT_THIN : Z := 0.
Definition WEIGHT_EXTRALIGHT : Z := 40.
Definition WEIGHT_LIGHT : Z := 50.
Definition WEIGHT_SEMILIGHT : Z := 55.
Definition WEIGHT_BOOK : Z := 75.
Definition WEIGHT_NORMAL : Z := 80.
Definition WEIGHT_MEDIUM : Z := 100.
Definition WEIGHT_SEMIBOLD : Z := 180.
Definition WEIGHT_BOLD : Z := 200.
Definition WEIGHT_ULTRABOLD : Z := 205.
Definition WEIGHT_HEAVY : Z := 210.
Definition WEIGHT_ULTRABLACK : Z := 215.
Definition SLANT_ROMAN : Z := 0.
Definition SLANT_ITALIC : Z := 100.
Definition SLANT_OBLIQUE : Z := 110.
Definition WIDTH_ULTRACONDENSED : Z := 50.
Definition WIDTH_EXTRACONDENSED : Z := 63.
Definition WIDTH_CONDENSED : Z := 75.
Definition WIDTH_SEMICONDENSED : Z := 87.
Definition WIDTH_NORMAL : Z := 100.
Definition WIDTH_SEMIEXPANDED : Z := 113.
Definition WIDTH_EXPANDED : Z := 125.
Definition WIDTH_EXTRAEXPANDED : Z := 150.
Definition WIDTH_ULTRAEXPANDED : Z := 200.
End FC.

(** [FontAttributeLookups]: the tables between CSS and fontconfig. *)
Module lu.

Definition CSSWGT_to_FCWGT : Py.dict string Z :=
  [ ("normal", FC.WEIGHT_NORMAL);
    ("bold", FC.WEIGHT_BOLD);
    ("100", FC.WEIGHT_THIN);
    ("200", FC.WEIGHT_EXTRALIGHT);
    ("300", FC.WEIGHT_LIGHT);
    ("400", FC.WEIGHT_NORMAL);
    ("500", FC.WEIGHT_MEDIUM);
    ("600", FC.WEIGHT_SEMIBOLD);
    ("700", FC.WEIGHT_BOLD);
    ("800", FC.WEIGHT_ULTRABOLD);
    ("900", FC.WEIGHT_HEAVY) ].

Definition CSSSTY_to_FCSLN : Py.dict string Z :=
  [ ("normal", FC.SLANT_ROMAN);
    ("italic", FC.SLANT_ITALIC);
    ("oblique", FC.SLANT_OBLIQUE) ].

Definition CSSSTR_to_FCWDT : Py.dict string Z :=
  [ ("ultra-condensed", FC.WIDTH_ULTRACONDENSED);
    ("extra-condensed", FC.WIDTH_EXTRACONDENSED);
    ("condensed", FC.WIDTH_CONDENSED);
    ("semi-condensed", FC.WIDTH_SEMICONDENSED);
    ("normal", FC.WIDTH_NORMAL);
    ("semi-expanded", FC.WIDTH_SEMIEXPANDED);
    ("expanded", FC.WIDTH_EXPANDED);
    ("extra-expanded", FC.WIDTH_EXTRAEXPANDED);
    ("ultra-expanded", FC.WIDTH_ULTRAEXPANDED) ].

Definition FCWGT_to_CSSWGT : Py.dict Z string :=
  [ (FC.WEIGHT_THIN, "100");
    (FC.WEIGHT_EXTRALIGHT, "200");
    (FC.WEIGHT_LIGHT, "300");
    (FC.WEIGHT_SEMILIGHT, "300");
    (FC.WEIGHT_BOOK, "400");
    (FC.WEIGHT_NORMAL, "400");
    (FC.WEIGHT_MEDIUM, "500");
    (FC.WEIGHT_SEMIBOLD, "600");
    (FC.WEIGHT_BOLD, "700");
    (FC.WEIGHT_ULTRABOLD, "800");
    (FC.WEIGHT_HEAVY, "900");
    (FC.WEIGHT_ULTRABLACK, "900") ].

Definition FCSLN_to_CSSSTY : Py.dict Z string :=
  [ (FC.SLANT_ROMAN, "normal");
    (FC.SLANT_ITALIC, "italic");
    (FC.SLANT_OBLIQUE, "oblique") ].

Definition FCWDT_to_CSSSTR : Py.dict Z string :=
  [ (FC.WIDTH_ULTRACONDENSED, "ultra-condensed");
    (FC.WIDTH_EXTRACONDENSED, "extra-condensed");
    (FC.WIDTH_CONDENSED, "condensed");
    (FC.WIDTH_SEMICONDENSED, "semi-condensed");
    (FC.WIDTH_NORMAL, "normal");
    (FC.WIDTH_SEMIEXPANDED, "semi-expanded");
    (FC.WIDTH_EXPANDED, "expanded");
    (FC.WIDTH_EXTRAEXPANDED, "extra-expanded");
    (FC.WIDTH_ULTRAEXPANDED, "ultra-expanded") ].

End lu.

(** ** The font resolver and its caches *)

(** A CSS style: the items of an [inkex.Style], in order. The tuple
    [tuple(sty.items())] used as a cache key is the list itself. *)
Abbreviation Style := (list (string * string)).

(** A property value read from a matched face: a number, a string, or a
    tuple (a list-valued attribute). *)
Inductive fcval : Type :=
| VInt (n : Z)
| VStr (s : string)
| VTuple (t : list Z).

(** A face returned by the matching service, with the properties the
    resolver reads through [f.get(prop, 0)[0]]. *)
Record Found : Type := {
  FAMILY : fcval;
  WEIGHT : fcval;
  SLANT : fcval;
  WIDTH : fcval;
  FILE : string;
  CHARSET : gset N
}.

Inductive Prop_ : Type := PROP_WIDTH | PROP_WEIGHT | PROP_SLANT.

(** A search pattern: the parsed family name and the added properties. *)
Record Pattern : Type := {
  name_parse : string;
  added : list (Prop_ * Z)
}.

Inductive Query : Type :=
| MatchBest (pat : Pattern)
| MatchRanked (pat : Pattern).

(** A reference to a [Style] object of the heap. *)
Abbreviation ref := nat (only parsing).

(** The [FontConfig] object with its caches, the heap of the [Style]
    objects created by the resolver, and the queries sent so far to the
    matching service. *)
Record World : Type := {
  truefonts : gmap Style (option ref);
  truefontsfc : gmap Style Found;
  fontcharsets : gmap Style (gset N);
  heap : list Style;
  queries : list Query
}.

Definition M (A : Type) : Type := World -> result A * World.

Definition ret {A} (a : A) : M A := fun w => (Ok a, w).

Definition bind {A B} (m : M A) (k : A -> M B) : M B :=
  fun w =>
    match m w with
    | (Ok a, w') => k a w'
    | (Raise e, w') => (Raise e, w')
    end.

Definition lift {A} (r : result A) : M A := fun w => (r, w).

Definition get_world : M World := fun w => (Ok w, w).

Declare Scope m_scope.
Delimit Scope m_scope with M.
Notation "x <- m ;; k" := (bind m (fun x => k))
  (at level 100, m at next level, right associativity) : m_scope.
Local Open Scope m_scope.

(** [self.truefonts[k] = v] *)
Definition set_truefonts (k : Style) (v : option ref) : M unit :=
  fun w =>
    (Ok tt, {| truefonts := <[k := v]> (truefonts w);
               truefontsfc := truefontsfc w;
               fontcharsets := fontcharsets w;
               heap := heap w;
               queries := queries w |}).

(** [self.truefontsfc[k] = v] *)
Definition set_truefontsfc (k : Style) (v : Found) : M unit :=
  fun w =>
    (Ok tt, {| truefonts := truefonts w;
               truefontsfc := <[k := v]> (truefontsfc w);
               fontcharsets := fontcharsets w;
               heap := heap w;
               queries := queries w |}).

(** [self.fontcharsets[k] = v] *)
Definition set_fontcharsets (k : Style) (v : gset N) : M unit :=
  fun w =>
    (Ok tt, {| truefonts := truefonts w;
               truefontsfc := truefontsfc w;
               fontcharsets := <[k := v]> (fontcharsets w);
               heap := heap w;
               queries := queries w |}).

(** [self.truefonts[k]] *)
Definition truefonts_getitem (k : Style) : M (option ref) :=
  fun w =>
    match truefonts w !! k with
    | Some v => (Ok v, w)
    | None => (Raise KeyError, w)
    end.

(** [self.fontcharsets[k]] *)
Definition fontcharsets_getitem (k : Style) : M (gset N) :=
  fun w =>
    match fontcharsets w !! k with
    | Some v => (Ok v, w)
    | None => (Raise KeyError, w)
    end.

(** [Style(items)]: a new object, distinct from every earlier one. *)
Definition new_Style (items : Style) : M ref :=
  fun w =>
    (Ok (length (heap w)),
     {| truefonts := truefonts w;
        truefontsfc := truefontsfc w;
        fontcharsets := fontcharsets w;
        heap := (heap w ++ [items])%list;
        queries := queries w |}).

(** [tuple(truefont.items())]; [None] has no [items]. *)
Definition items_of (truefont : option ref) : M Style :=
  fun w =>
    match truefont with
    | None => (Raise AttributeError, w)
    | Some r =>
        match heap w !! r with
        | Some items => (Ok items, w)
        | None => (Raise AttributeError, w)
        end
    end.

Definition is_tuple (v : fcval) : bool :=
  match v with
  | VTuple _ => true
  | _ => false
  end.

(** A value used as a number ([x - v] on a string is a [TypeError]). *)
Definition as_number (v : fcval) : result Z :=
  match v with
  | VInt n => Ok n
  | _ => Raise TypeError
  end.

(** [fcfam.strip("'")]; a number has no [strip]. *)
Definition strip_quotes (v : fcval) : result string :=
  match v with
  | VStr s => Ok (Py.strip "'"%char s)
  | _ => Raise AttributeError
  end.

(** [lu.FCSLN_to_CSSSTY[fcsln]] *)
Definition slant_to_css (v : fcval) : result string :=
  match v with
  | VInt n => Py.getitem lu.FCSLN_to_CSSSTY n
  | _ => Raise KeyError
  end.

(** The items of the style built by [fcfound_to_css], or [None] for a
    face with a list-valued attribute. *)
Definition css_of_found (f : Found) : result (option Style) :=
  let fcfam := FAMILY f in
  let fcwgt := WEIGHT f in
  let fcsln := SLANT f in
  let fcwdt := WIDTH f in
  if existsb is_tuple [fcfam; fcwgt; fcsln; fcwdt] then Ok None
  else
    let? fam := strip_quotes fcfam in
    let? wgt := (let? n := as_number fcwgt in
                 nearest_val lu.FCWGT_to_CSSWGT n) in
    let? sty := slant_to_css fcsln in
    let? str := (let? n := as_number fcwdt in
                 nearest_val lu.FCWDT_to_CSSSTR n) in
    Ok (Some [ ("font-family", "'" ++ fam ++ "'");
               ("font-weight", wgt);
               ("font-style", sty);
               ("font-stretch", str) ]).

(** [fcfound_to_css(f)]: [None], or a new [Style] object. *)
Definition fcfound_to_css (f : Found) : M (option ref) :=
  css <- lift (css_of_found f) ;;
  match css with
  | None => ret None
  | Some items => r <- new_Style items ;; ret (Some r)
  end.

Section Resolver.

(** The matching service: the best match and the ranked, trimmed list of
    matches of a pattern (after [substitute] and [default_substitute]);
    and [re.escape]. *)
Variable font_match : Pattern -> Found.
Variable font_sort : Pattern -> list Found.
Variable re_escape : string -> string.

(** [tbl.get(sty.get(att), dflt)] *)
Definition css_lookup (tbl : Py.dict string Z) (sty : Style) (att : string)
    (dflt : Z) : Z :=
  match Py.get sty att with
  | Some v => Py.get_default tbl v dflt
  | None => dflt
  end.

(** [css_to_fc_pattern(sty)] *)
Definition css_to_fc_pattern (sty : Style) : result Pattern :=
  let? family := Py.getitem sty "font-family" in
  let pat :=
    re_escape (Py.remove_char (ascii_of_nat 34) (Py.remove_char "'"%char family)) in
  Ok {| name_parse := pat;
        added :=
          [ (PROP_WIDTH,
             css_lookup lu.CSSSTR_to_FCWDT sty "font-stretch" FC.WIDTH_NORMAL);
            (PROP_WEIGHT,
             css_lookup lu.CSSWGT_to_FCWGT sty "font-weight" FC.WEIGHT_NORMAL);
            (PROP_SLANT,
             css_lookup lu.CSSSTY_to_FCSLN sty "font-style" FC.SLANT_ROMAN) ] |}.

(** [conf.font_match(pat)], recorded in the query log. *)
Definition conf_font_match (pat : Pattern) : M Found :=
  fun w =>
    (Ok (font_match pat),
     {| truefonts := truefonts w;
        truefontsfc := truefontsfc w;
        fontcharsets := fontcharsets w;
        heap := heap w;
        queries := (queries w ++ [MatchBest pat])%list |}).

(** [conf.font_sort(pat, trim=True, want_coverage=False)], recorded in
    the query log. *)
Definition conf_font_sort (pat : Pattern) : M (list Found) :=
  fun w =>
    (Ok (font_sort pat),
     {| truefonts := truefonts w;
        truefontsfc := truefontsfc w;
        fontcharsets := fontcharsets w;
        heap := heap w;
        queries := (queries w ++ [MatchRanked pat])%list |}).

(** [get_true_font(reducedsty)] *)
Definition get_true_font (reducedsty : Style) : M (option ref) :=
  let nftuple := reducedsty in
  w <- get_world ;;
  _ <- (if decide (truefonts w !! nftuple = None) then
          pat <- lift (css_to_fc_pattern reducedsty) ;;
          found <- conf_font_match pat ;;
          truefont <- fcfound_to_css found ;;
          _ <- set_truefonts nftuple truefont ;;
          _ <- set_truefontsfc nftuple found ;;
          key <- items_of truefont ;;
          set_fontcharsets key (CHARSET found)
        else ret tt) ;;
  truefonts_getitem nftuple.

(** [{k: truefont for k in chars
       if ord(k) in self.fontcharsets[tuple(truefont.items())]}] *)
Fixpoint primary_hits (truefont : option ref) (chars : list N)
    (d : gmap N (option ref)) : M (gmap N (option ref)) :=
  match chars with
  | [] => ret d
  | k :: chars' =>
      key <- items_of truefont ;;
      cs <- fontcharsets_getitem key ;;
      primary_hits truefont chars'
        (if bool_decide (k ∈ cs) then <[k := truefont]> d else d)
  end.

(** [k not in d] *)
Definition not_in {V} (d : gmap N V) (k : N) : bool :=
  match d !! k with
  | Some _ => false
  | None => true
  end.

(** The loop [for f in found] with its [break]. *)
Fixpoint walk_found (chars : list N) (found : list Found)
    (d : gmap N (option ref)) : M (gmap N (option ref)) :=
  match found with
  | [] => ret d
  | f :: found' =>
      truefont <- fcfound_to_css f ;;
      let cs := CHARSET f in
      key <- items_of truefont ;;
      _ <- set_fontcharsets key cs ;;
      let d2 :=
        Py.dict_comp chars
          (fun k => bool_decide (k ∈ cs) && not_in d k) truefont in
      let d := Py.update d d2 in
      if (size d =? length chars)%nat then ret d
      else walk_found chars found' d
  end.

(** [get_true_font_by_char(reducedsty, chars)] *)
Definition get_true_font_by_char (reducedsty : Style) (chars : list N)
    : M (gmap N (option ref)) :=
  let nftuple := reducedsty in
  w <- get_world ;;
  d <- match truefonts w !! nftuple with
       | Some truefont => primary_hits truefont chars ∅
       | None => ret ∅
       end ;;
  if (size d <? length chars)%nat then
    pat <- lift (css_to_fc_pattern reducedsty) ;;
    found <- conf_font_sort pat ;;
    d <- walk_found chars found d ;;
    if (size d <? length chars)%nat then
      ret (Py.update d (Py.dict_comp chars (not_in d) None))
    else ret d
  else ret d.

End Resolver.

(** The primary face cached for a style with its cached coverage set:
    what the first phase of [get_true_font_by_char] reads. *)
Definition primary_coverage (w : World) (sty : Style) : option (nat * gset N) :=
  match truefonts w !! sty with
  | Some (Some r) =>
      match heap w !! r with
      | Some items =>
          match fontcharsets w !! items with
          | Some cs => Some (r, cs)
          | None => None
          end
      | None => None
      end
  | _ => None
  end.

(** A character is covered by the cached primary face of a style. *)
Definition primary_covers (w : World) (sty : Style) (c : N) : Prop :=
  exists r cs, primary_coverage w sty = Some (r, cs) /\ c ∈ cs.

(** A face of the matching service has scalar attributes that convert
    to a CSS descriptor. *)
Definition scalar_face (f : Found) : Prop :=
  exists items, css_of_found f = Ok (Some items).

(** ** The metrics extractor *)

(** The [OS/2] table. [sCapHeight] is [None] when the attribute is
    missing or holds [None]. *)
Record OS2Table : Type := {
  usWeightClass : Z;
  usWidthClass : Z;
  fsSelection : Z;
  sTypoAscender : Z;
  sTypoDescender : Z;
  version : Z;
  sxHeight : Z;
  sCapHeight : option Z
}.

Record HheaTable : Type := {
  ascent : Z;
  descent : Z
}.

(** The bounds of a glyph outline. *)
Record Glyph : Type := {
  xMin : Z;
  yMin : Z;
  xMax : Z;
  yMax : Z
}.

(** A ligature of a ligature set: the components after the first glyph,
    and the glyph that replaces the sequence. *)
Record Ligature : Type := {
  Component : list string;
  LigGlyph : string
}.

(** The content of a substitution subtable: the ligature sets by first
    glyph (lookup type 4), or a substitution of another type. *)
Inductive SubstData : Type :=
| LigatureSubst (ligatures : Py.dict string (list Ligature))
| OtherSubst.

(** A subtable of a lookup: its own data, or an extension wrapping a
    subtable with a lookup type of its own. *)
Inductive GsubSubTable : Type :=
| Direct (data : SubstData)
| Extension (ExtLookupType : Z) (ExtSubTable : SubstData).

Record Lookup : Type := {
  LookupType : Z;
  SubTable : list GsubSubTable
}.

(** An opened face ([TTFont]) with the tables the extractor reads.
    [head], [hhea], [hmtx] and [name] are indexed unconditionally by the
    code; the others are tested for presence first. A glyph is its name. *)
Record TTFont : Type := {
  unitsPerEm : Z;
  OS2 : option OS2Table;
  hhea : HheaTable;
  subfamily_name : option string;
  fvar_axes : option (list string);
  getBestCmap : option (gmap N string);
  hmtx_metrics : gmap string (Z * Z);
  kernTables : option (list (gmap (string * string) Z));
  GSUB : option (list Lookup);
  glyf : option (gmap string (option Glyph));
  getGlyphSet : option (gmap string (option Z));
  getGlyphNames : list string
}.

(** What a font file path opens as. *)
Inductive FontFile : Type :=
| SingleFace (font : TTFont)
| FaceCollection (fonts : list TTFont)
| Unreadable.

Module FontTools_FontInstance.

Definition OS2WDT_to_FCWDT : Py.dict Z Z :=
  [ (1, FC.WIDTH_ULTRACONDENSED);
    (2, FC.WIDTH_EXTRACONDENSED);
    (3, FC.WIDTH_CONDENSED);
    (4, FC.WIDTH_SEMICONDENSED);
    (5, FC.WIDTH_NORMAL);
    (6, FC.WIDTH_SEMIEXPANDED);
    (7, FC.WIDTH_EXPANDED);
    (8, FC.WIDTH_EXTRAEXPANDED);
    (9, FC.WIDTH_ULTRAEXPANDED) ].

Definition OS2WGT_to_FCWGT : Py.dict Z Z :=
  [ (100, FC.WEIGHT_THIN);
    (200, FC.WEIGHT_EXTRALIGHT);
    (300, FC.WEIGHT_LIGHT);
    (350, FC.WEIGHT_SEMILIGHT);
    (380, FC.WEIGHT_BOOK);
    (400, FC.WEIGHT_NORMAL);
    (500, FC.WEIGHT_MEDIUM);
    (600, FC.WEIGHT_SEMIBOLD);
    (700, FC.WEIGHT_BOLD);
    (800, FC.WEIGHT_ULTRABOLD);
    (900, FC.WEIGHT_HEAVY);
    (1000, FC.WEIGHT_ULTRABLACK) ].

Definition FCWGT_to_OS2WGT : Py.dict Z Z :=
  [ (FC.WEIGHT_THIN, 100);
    (FC.WEIGHT_EXTRALIGHT, 200);
    (FC.WEIGHT_LIGHT, 300);
    (FC.WEIGHT_SEMILIGHT, 350);
    (FC.WEIGHT_BOOK, 380);
    (FC.WEIGHT_NORMAL, 400);
    (FC.WEIGHT_MEDIUM, 500);
    (FC.WEIGHT_SEMIBOLD, 600);
    (FC.WEIGHT_BOLD, 700);
    (FC.WEIGHT_ULTRABOLD, 800);
    (FC.WEIGHT_HEAVY, 900);
    (FC.WEIGHT_ULTRABLACK, 1000) ].

(** [v == n] for a property value and an integer. *)
Definition fcval_is (v : fcval) (n : Z) : bool :=
  match v with
  | VInt m => m =? n
  | _ => false
  end.

(** [font["OS/2"]] *)
Definition os2_table (font : TTFont) : result OS2Table :=
  match OS2 font with
  | Some t => Ok t
  | None => Raise KeyError
  end.

(** The three boolean matches of a sub-face against the found face. *)
Definition matches (found : Found) (tfont : TTFont) : result (list bool) :=
  let fcwgt := WEIGHT found in
  let fcsln := SLANT found in
  let fcwdt := WIDTH found in
  let? os2 := os2_table tfont in
  let font_weight := usWeightClass os2 in
  let font_width := usWidthClass os2 in
  let subfamily :=
    match subfamily_name tfont with
    | Some s => s
    | None => "Unknown"
    end in
  let font_italic :=
    negb (Z.land (fsSelection os2) 1 =? 0)
    || Py.contains "italic" (Py.lower subfamily)
    || Py.contains "oblique" (Py.lower subfamily) in
  let? wgt := nearest_val OS2WGT_to_FCWGT font_weight in
  let? wdt := Py.getitem OS2WDT_to_FCWDT font_width in
  Ok [ fcval_is fcwgt wgt;
       fcval_is fcwdt wdt;
       (font_italic
        && (fcval_is fcsln FC.SLANT_ITALIC || fcval_is fcsln FC.SLANT_OBLIQUE))
       || (negb font_italic && fcval_is fcsln FC.SLANT_ROMAN) ].

(** The loop [for i in range(num_fonts)] over the sub-faces not yet
    visited: the scores so far, and the sub-face a perfect score stopped
    the loop at. *)
Fixpoint scan_faces (found : Found) (tfonts : list TTFont)
    (num_match : list nat) : result (list nat * option TTFont) :=
  match tfonts with
  | [] => Ok (num_match, None)
  | tfont :: tfonts' =>
      let? ms := matches found tfont in
      let num_match := (num_match ++ [Py.sum_bools ms])%list in
      if (Py.sum_bools ms =? 3)%nat then Ok (num_match, Some tfont)
      else scan_faces found tfonts' num_match
  end.

(** [[TTFont(fname, fontNumber=i) for i in range(num_fonts)
      if num_match[i] == max(num_match)]] *)
Fixpoint faces_at_max (tfonts : list TTFont) (num_match : list nat)
    (i : nat) (mx : nat) : result (list TTFont) :=
  match tfonts with
  | [] => Ok []
  | tfont :: tfonts' =>
      match num_match !! i with
      | None => Raise IndexError
      | Some n =>
          let? l := faces_at_max tfonts' num_match (S i) mx in
          Ok (if (n =? mx)%nat then tfont :: l else l)
      end
  end.

(** The [except] branch of [font_from_fc]: the choice of a sub-face of
    a collection. *)
Definition font_from_collection (found : Found) (file : FontFile)
    : result TTFont :=
  match file with
  | FaceCollection tfonts =>
      let? scanned := scan_faces found tfonts [] in
      let num_match := fst scanned in
      let font := snd scanned in
      let? mx := Py.max num_match in
      if (mx <? 3)%nat then
        let? l := faces_at_max tfonts num_match 0 mx in
        match l with
        | tfont :: _ => Ok tfont
        | [] => Raise IndexError
        end
      else
        match font with
        | Some tfont => Ok tfont
        | None => Raise IndexError
        end
  | _ => Raise TTLibError
  end.

(** The attributes set by [find_font_metrics]. *)
Record FontMetrics : Type := {
  _ascent : float;
  _descent : float;
  _ascent_max : float;
  _descent_max : float;
  _design_units : Z;
  _xheight : float;
  _baselines : list float;
  cap_height : float
}.

(** [abs(a / b)] *)
Definition abs_div (a b : Z) : result float :=
  let? q := Py.truediv a b in Ok (PrimFloat.abs q).

(** The [x]-height read from the glyph set. *)
Definition glyph_xheight (font : TTFont) : result float :=
  match getGlyphSet font with
  | None => Raise TTLibError
  | Some glyph_set =>
      match glyph_set !! "x" with
      | Some (Some height) => abs_div height (unitsPerEm font)
      | _ => Ok 0.5%float
      end
  end.

(** The capital height. *)
Definition find_cap_height (font : TTFont) : result float :=
  let os2_cap :=
    match OS2 font with
    | Some os2 =>
        match sCapHeight os2 with
        | Some h => if decide (h = 0) then None else Some h
        | None => None
        end
    | None => None
    end in
  match os2_cap with
  | Some h => Py.truediv h (unitsPerEm font)
  | None =>
      match glyf font with
      | Some glyf_table =>
          if bool_decide ("I" ∈ getGlyphNames font) then
            match glyf_table !! "I" with
            | None => Raise KeyError
            | Some None => Raise AttributeError
            | Some (Some i_glyph) =>
                Py.truediv (yMax i_glyph - 0 * yMin i_glyph) (unitsPerEm font)
            end
          else Ok PrimFloat.one
      | None => Ok PrimFloat.one
      end
  end.

(** [find_font_metrics()]. The literal [0.8] is the binary64 number
    [0x1.999999999999ap-1]; the integers [0] and [1] stored in the baseline
    table and as default capital height are the floats they equal. *)
Definition find_font_metrics (font : TTFont) : result FontMetrics :=
  let unitsPerEm := unitsPerEm font in
  let os2 := OS2 font in
  let? ascent0 :=
    match os2 with
    | Some os2 => abs_div (sTypoAscender os2) unitsPerEm
    | None => abs_div (ascent (hhea font)) unitsPerEm
    end in
  let? descent0 :=
    match os2 with
    | Some os2 => abs_div (sTypoDescender os2) unitsPerEm
    | None => abs_div (descent (hhea font)) unitsPerEm
    end in
  let? ascent_max := abs_div (ascent (hhea font)) unitsPerEm in
  let? descent_max := abs_div (descent (hhea font)) unitsPerEm in
  let em := PrimFloat.add ascent0 descent0 in
  let ascent1 :=
    if PrimFloat.ltb PrimFloat.zero em then PrimFloat.div ascent0 em
    else ascent0 in
  let descent1 :=
    if PrimFloat.ltb PrimFloat.zero em then PrimFloat.div descent0 em
    else descent0 in
  let? xheight :=
    match os2 with
    | Some os2 =>
        if (2 <=? version os2) && negb (version os2 =? 65535)
        then abs_div (sxHeight os2) unitsPerEm
        else glyph_xheight font
    | None => glyph_xheight font
    end in
  let baselines :=
    [ PrimFloat.opp descent1;
      PrimFloat.mul 0x1.999999999999ap-1%float ascent1;
      PrimFloat.mul 0x1.999999999999ap-1%float xheight;
      PrimFloat.sub 0.5%float descent1;
      PrimFloat.mul 0.5%float xheight;
      ascent1;
      PrimFloat.opp descent1;
      PrimFloat.zero ] in
  let? cap := find_cap_height font in
  Ok {| _ascent := ascent1;
        _descent := descent1;
        _ascent_max := ascent_max;
        _descent_max := descent_max;
        _design_units := unitsPerEm;
        _xheight := xheight;
        _baselines := baselines;
        cap_height := cap |}.

(** A metrics handle: the opened face, its metrics, and the ligature
    table once it has been built (the attribute [ligatures]). The other
    attributes set by [get_char_advances] are plain reads of the face. *)
Record Instance : Type := {
  font : TTFont;
  metrics : FontMetrics;
  ligatures : option (gmap (list string) string)
}.

Section Open.

(** The font-table service: what a path opens as, and the instancing of
    a variable font at a location. *)
Variable open_file : string -> FontFile.
Variable instantiateVariableFont :
  TTFont -> Py.dict string fcval -> result TTFont.

(** The loop over the axes of [fvar]. *)
Fixpoint axes_location (fcwgt fcwdt : fcval) (axes : list string)
    (location : Py.dict string fcval) : result (Py.dict string fcval) :=
  match axes with
  | [] => Ok location
  | axisTag :: axes' =>
      if decide (axisTag = "wght") then
        let? n := as_number fcwgt in
        let? w := nearest_val FCWGT_to_OS2WGT n in
        axes_location fcwgt fcwdt axes' (Py.setitem location "wght" (VInt w))
      else if decide (axisTag = "wdth") then
        axes_location fcwgt fcwdt axes' (Py.setitem location "wdth" fcwdt)
      else axes_location fcwgt fcwdt axes' location
  end.

(** The [try] branch of [font_from_fc]. *)
Definition font_from_single (found : Found) : result TTFont :=
  match open_file (FILE found) with
  | SingleFace font =>
      match fvar_axes font with
      | Some axes =>
          let? location :=
            axes_location (WEIGHT found) (WIDTH found) axes [] in
          if (0 <? length location)%nat
          then instantiateVariableFont font location
          else Ok font
      | None => Ok font
      end
  | _ => Raise TTLibError
  end.

(** [font_from_fc(found)] *)
Definition font_from_fc (found : Found) : result TTFont :=
  match font_from_single found with
  | Ok font => Ok font
  | Raise _ => font_from_collection found (open_file (FILE found))
  end.

(** [FontTools_FontInstance(fcfont)] *)
Definition init (fcfont : Found) : result Instance :=
  let? font := font_from_fc fcfont in
  let? metrics := find_font_metrics font in
  Ok {| font := font; metrics := metrics; ligatures := None |}.

End Open.

(** [[f x for x in l]] with the first exception raised. *)
Fixpoint map_result {A B} (f : A -> result B) (l : list A) : result (list B) :=
  match l with
  | [] => Ok []
  | x :: l' =>
      let? y := f x in
      let? ys := map_result f l' in
      Ok (y :: ys)
  end.

(** The ink box of a glyph; any exception gives the zero box (the
    integers [[0, 0, 0, 0]], written as the floats they equal). *)
Definition ink_box (font : TTFont) (glyph1 : string) : list float :=
  let box :=
    match glyf font with
    | None => Raise TypeError
    | Some glyf_table =>
        match glyf_table !! glyph1 with
        | None => Raise KeyError
        | Some None => Raise AttributeError
        | Some (Some glyph) =>
            let bb := [ xMin glyph;
                        - yMax glyph;
                        xMax glyph - xMin glyph;
                        yMax glyph - yMin glyph ] in
            map_result (fun v => Py.truediv v (unitsPerEm font)) bb
        end
    end in
  match box with
  | Ok bb => bb
  | Raise _ => [PrimFloat.zero; PrimFloat.zero; PrimFloat.zero; PrimFloat.zero]
  end.

(** The body of the loop [for c in chars]. *)
Definition char_step (font : TTFont) (cmap : gmap N string)
    (acc : gmap N (option float) * gmap N (list float)) (c : N)
    : result (gmap N (option float) * gmap N (list float)) :=
  let advs := fst acc in
  let bbs := snd acc in
  match cmap !! c with
  | Some glyph1 =>
      let? advs :=
        match hmtx_metrics font !! glyph1 with
        | Some (advance_width, lsb) =>
            let? a := Py.truediv advance_width (unitsPerEm font) in
            Ok (<[c := Some a]> advs)
        | None => Ok advs
        end in
      Ok (advs, <[c := ink_box font glyph1]> bbs)
  | None => Ok (<[c := None]> advs, bbs)
  end.

Fixpoint char_loop (font : TTFont) (cmap : gmap N string) (chars : list N)
    (acc : gmap N (option float) * gmap N (list float))
    : result (gmap N (option float) * gmap N (list float)) :=
  match chars with
  | [] => Ok acc
  | c :: chars' =>
      let? acc := char_step font cmap acc c in
      char_loop font cmap chars' acc
  end.

(** The ligatures of one ligature set, added to the table. *)
Definition add_ligature_set (first_glyph : string)
    (ligature_set : list Ligature) (table : gmap (list string) string)
    : gmap (list string) string :=
  fold_left
    (fun table ligature =>
       <[first_glyph :: Component ligature := LigGlyph ligature]> table)
    ligature_set table.

Definition add_ligatures (ligs : Py.dict string (list Ligature))
    (table : gmap (list string) string) : gmap (list string) string :=
  fold_left (fun table item => add_ligature_set (fst item) (snd item) table)
    ligs table.

(** [ext_subtable.ligatures] *)
Definition subst_ligatures (d : SubstData)
    : result (Py.dict string (list Ligature)) :=
  match d with
  | LigatureSubst ligs => Ok ligs
  | OtherSubst => Raise AttributeError
  end.

(** The body of the loop over the subtables of a lookup. *)
Definition scan_subtable (lookup : Lookup) (subtable : GsubSubTable)
    (table : gmap (list string) string) : result (gmap (list string) string) :=
  if LookupType lookup =? 7 then
    match subtable with
    | Extension lookup_type ext_subtable =>
        if lookup_type =? 4 then
          let? ligs := subst_ligatures ext_subtable in
          Ok (add_ligatures ligs table)
        else Ok table
    | Direct _ => Raise AttributeError
    end
  else
    if LookupType lookup =? 4 then
      match subtable with
      | Direct ext_subtable =>
          let? ligs := subst_ligatures ext_subtable in
          Ok (add_ligatures ligs table)
      | Extension _ _ => Raise AttributeError
      end
    else Ok table.

(** The loops over subtables and lookups fill the table in place: an
    exception leaves the entries added so far. *)
Fixpoint scan_subtables (lookup : Lookup) (subtables : list GsubSubTable)
    (table : gmap (list string) string)
    : result unit * gmap (list string) string :=
  match subtables with
  | [] => (Ok tt, table)
  | subtable :: subtables' =>
      match scan_subtable lookup subtable table with
      | Ok table' => scan_subtables lookup subtables' table'
      | Raise e => (Raise e, table)
      end
  end.

Fixpoint scan_lookups (lookups : list Lookup)
    (table : gmap (list string) string)
    : result unit * gmap (list string) string :=
  match lookups with
  | [] => (Ok tt, table)
  | lookup :: lookups' =>
      match scan_subtables lookup (SubTable lookup) table with
      | (Ok _, table') => scan_lookups lookups' table'
      | (Raise e, table') => (Raise e, table')
      end
  end.

(** The block [if not hasattr(self, "ligatures")]. *)
Definition ensure_ligatures (self : Instance)
    : result (gmap (list string) string) * Instance :=
  match ligatures self with
  | Some table => (Ok table, self)
  | None =>
      match GSUB (font self) with
      | Some lookups =>
          let built := scan_lookups lookups ∅ in
          let self' := {| font := font self;
                          metrics := metrics self;
                          ligatures := Some (snd built) |} in
          match fst built with
          | Ok _ => (Ok (snd built), self')
          | Raise e => (Raise e, self')
          end
      | None =>
          (Ok ∅, {| font := font self;
                    metrics := metrics self;
                    ligatures := Some ∅ |})
      end
  end.

(** [self.ligatures.get((glyph1, glyph2))]: the keys are sequences of
    glyph names, so a pair with an unmapped character is never a key. *)
Definition lig_get (table : gmap (list string) string)
    (glyph1 glyph2 : option string) : option string :=
  match glyph1, glyph2 with
  | Some g1, Some g2 => table !! [g1; g2]
  | _, _ => None
  end.

(** [subtable.kernTable.get((glyph1, glyph2))] *)
Definition kern_get (kernTable : gmap (string * string) Z)
    (glyph1 glyph2 : option string) : option Z :=
  match glyph1, glyph2 with
  | Some g1, Some g2 => kernTable !! (g1, g2)
  | _, _ => None
  end.

(** The loop over the kerning subtables with its [break]. *)
Fixpoint kern_scan (tables : list (gmap (string * string) Z))
    (glyph1 glyph2 : option string) : option Z :=
  match tables with
  | [] => None
  | kernTable :: tables' =>
      match kern_get kernTable glyph1 glyph2 with
      | Some kerning_value => Some kerning_value
      | None => kern_scan tables' glyph1 glyph2
      end
  end.

(** [self.hmtx.metrics[glyph][0]] *)
Definition advance_of (font : TTFont) (glyph : option string) : result Z :=
  match glyph with
  | Some g =>
      match hmtx_metrics font !! g with
      | Some (aw, lsb) => Ok aw
      | None => Raise KeyError
      end
  | None => Raise KeyError
  end.

(** The adjustment of one pair: the body of the loop [for pc in pchars[c]]. *)
Definition pair_adjust (font : TTFont) (table : gmap (list string) string)
    (glyph1 glyph2 : option string) : result float :=
  let? kerning_value :=
    match lig_get table glyph1 glyph2 with
    | Some ligglyph =>
        let? awlig := advance_of font (Some ligglyph) in
        let? aw1 := advance_of font glyph1 in
        let? aw2 := advance_of font glyph2 in
        Ok (Some (awlig - aw1 - aw2))
    | None =>
        match kernTables font with
        | Some tables => Ok (kern_scan tables glyph1 glyph2)
        | None => Ok None
        end
    end in
  let kerning_value :=
    match kerning_value with
    | Some v => v
    | None => 0
    end in
  Py.truediv kerning_value (unitsPerEm font).

Fixpoint prev_loop (font : TTFont) (cmap : gmap N string)
    (table : gmap (list string) string) (c : N) (pcs : list N)
    (dadvs : gmap (N * N) float) : result (gmap (N * N) float) :=
  match pcs with
  | [] => Ok dadvs
  | pc :: pcs' =>
      let glyph2 := cmap !! c in
      let glyph1 := cmap !! pc in
      let? v := pair_adjust font table glyph1 glyph2 in
      prev_loop font cmap table c pcs' (<[(pc, c) := v]> dadvs)
  end.

Fixpoint pair_loop (font : TTFont) (cmap : gmap N string)
    (table : gmap (list string) string) (pchars : Py.dict N (list N))
    (dadvs : gmap (N * N) float) : result (gmap (N * N) float) :=
  match pchars with
  | [] => Ok dadvs
  | (c, pcs) :: pchars' =>
      let? dadvs := prev_loop font cmap table c pcs dadvs in
      pair_loop font cmap table pchars' dadvs
  end.

(** The three outputs of [get_char_advances]. *)
Abbreviation Advances :=
  (option (gmap N (option float)) * option (gmap (N * N) float)
   * option (gmap N (list float)))%type.

(** [get_char_advances(chars, pchars)] *)
Definition get_char_advances (self : Instance) (chars : list N)
    (pchars : Py.dict N (list N)) : result Advances * Instance :=
  match getBestCmap (font self) with
  | None => (Ok (None, None, None), self)
  | Some cmap =>
      match char_loop (font self) cmap chars (∅, ∅) with
      | Raise e => (Raise e, self)
      | Ok (advs, bbs) =>
          match ensure_ligatures self with
          | (Raise e, self') => (Raise e, self')
          | (Ok table, self') =>
              match pair_loop (font self) cmap table pchars ∅ with
              | Raise e => (Raise e, self')
              | Ok dadvs => (Ok (Some advs, Some dadvs, Some bbs), self')
              end
          end
      end
  end.

(** The glyphs of a ligature found for a pair have horizontal metrics. *)
Definition ligature_measurable (font : TTFont)
    (table : gmap (list string) string) (glyph1 glyph2 : option string) : Prop :=
  forall ligglyph,
    lig_get table glyph1 glyph2 = Some ligglyph ->
    exists awlig aw1 aw2,
      advance_of font (Some ligglyph) = Ok awlig
      /\ advance_of font glyph1 = Ok aw1
      /\ advance_of font glyph2 = Ok aw2.

(** That holds for every requested pair. *)
Definition pairs_measurable (font : TTFont) (cmap : gmap N string)
    (table : gmap (list string) string) (pchars : Py.dict N (list N)) : Prop :=
  forall c pcs pc,
    (c, pcs) ∈ pchars -> pc ∈ pcs ->
    ligature_measurable font table (cmap !! pc) (cmap !! c).

(** The score of a sub-face: how many of its three matches hold. *)
Definition num_matched (found : Found) (tfont : TTFont) : nat :=
  match matches found tfont with
  | Ok ms => Py.sum_bools ms
  | Raise _ => 0%nat
  end.

(** A sub-face with an [OS/2] table whose width class is one of the
    nine classes of the width table. *)
Definition classified (tfont : TTFont) : Prop :=
  exists os2, OS2 tfont = Some os2 /\ 1 <= usWidthClass os2 <= 9.

(** The three criteria of the score, as the specification words them.
    The weight matches: the fontconfig weight nearest to the weight class
    of the sub-face is the requested weight. *)
Definition weight_matches (found : Found) (os2 : OS2Table) : Prop :=
  exists w,
    nearest_val OS2WGT_to_FCWGT (usWeightClass os2) = Ok w
    /\ WEIGHT found = VInt w.

(** The width matches: the fontconfig width of the width class of the
    sub-face is the requested width. *)
Definition width_matches (found : Found) (os2 : OS2Table) : Prop :=
  exists w,
    Py.getitem OS2WDT_to_FCWDT (usWidthClass os2) = Ok w
    /\ WIDTH found = VInt w.

(** The italic flag of a sub-face: the italic bit of [fsSelection], or a
    subfamily name that contains "italic" or "oblique" in any case. *)
Definition italic_flag (tfont : TTFont) (os2 : OS2Table) : Prop :=
  Z.land (fsSelection os2) 1 <> 0
  \/ exists sub,
       sub = match subfamily_name tfont with
             | Some s => s
             | None => "Unknown"
             end
       /\ (Py.contains "italic" (Py.lower sub) = true
           \/ Py.contains "oblique" (Py.lower sub) = true).

(** The italic flag is consistent with the requested slant: an italic
    sub-face for an italic or oblique request, an upright one for a roman
    request. *)
Definition slant_matches (found : Found) (tfont : TTFont) (os2 : OS2Table)
    : Prop :=
  (italic_flag tfont os2
   /\ (SLANT found = VInt FC.SLANT_ITALIC
       \/ SLANT found = VInt FC.SLANT_OBLIQUE))
  \/ (~ italic_flag tfont os2 /\ SLANT found = VInt FC.SLANT_ROMAN).

(** Every entry of the pair adjustments is the adjustment computed for
    its pair. *)
Definition adjustments_computed (font : TTFont) (cmap : gmap N string)
    (table : gmap (list string) string) (dadvs : gmap (N * N) float) : Prop :=
  forall pc c q, dadvs !! (pc, c) = Some q ->
    pair_adjust font table (cmap !! pc) (cmap !! c) = Ok q.

End FontTools_FontInstance.

(** ** Concrete styles, faces and fonts used to exercise the model *)

Module Ex.

Definition sty : Style :=
  [ ("font-family", "'Arial'");
    ("font-weight", "700");
    ("font-style", "normal");
    ("font-stretch", "normal") ].

(** A face with scalar attributes covering [A] and [V]. *)
Definition arial : Found :=
  {| FAMILY := VStr "Arial";
     WEIGHT := VInt FC.WEIGHT_BOLD;
     SLANT := VInt FC.SLANT_ROMAN;
     WIDTH := VInt FC.WIDTH_NORMAL;
     FILE := "arialbd.ttf";
     CHARSET := {[ 65%N; 86%N ]} |}.

(** A symbol face covering the character U+23A3. *)
Definition symbols : Found :=
  {| FAMILY := VStr "Symbola";
     WEIGHT := VInt FC.WEIGHT_NORMAL;
     SLANT := VInt FC.SLANT_ROMAN;
     WIDTH := VInt FC.WIDTH_NORMAL;
     FILE := "symbola.ttf";
     CHARSET := {[ 9123%N ]} |}.

(** A variable face whose weight is reported as a range. *)
Definition variable : Found :=
  {| FAMILY := VStr "Inter";
     WEIGHT := VTuple [100; 900];
     SLANT := VInt FC.SLANT_ROMAN;
     WIDTH := VInt FC.WIDTH_NORMAL;
     FILE := "inter.ttf";
     CHARSET := {[ 65%N; 86%N ]} |}.

(** The resolver before any call. *)
Definition world0 : World :=
  {| truefonts := ∅;
     truefontsfc := ∅;
     fontcharsets := ∅;
     heap := [];
     queries := [] |}.

Definition re_escape (s : string) : string := s.

(** The pattern built for [sty]. *)
Definition pat : Pattern :=
  {| name_parse := "Arial";
     added := [ (PROP_WIDTH, FC.WIDTH_NORMAL);
                (PROP_WEIGHT, FC.WEIGHT_BOLD);
                (PROP_SLANT, FC.SLANT_ROMAN) ] |}.

(** The resolver after [get_true_font] has resolved [sty] to [arial]. *)
Definition world1 : World :=
  snd (get_true_font (fun _ => arial) re_escape sty world0).

(** Ranked lists of the matching service: with scalar faces only, and
    with a face of list-valued weight at the end. *)
Definition ranked_scalar (_ : Pattern) : list Found := [arial; symbols].
Definition ranked (_ : Pattern) : list Found := [arial; symbols; variable].

(** A ranked list in which the face of list-valued weight comes before
    the only face that covers U+23A3. *)
Definition ranked_late (_ : Pattern) : list Found := [arial; variable; symbols].

(** The tables of a bold upright face with kerning and ligatures. The
    character U+20AC is mapped to a glyph without horizontal metrics. *)
Definition bold_os2 : OS2Table :=
  {| usWeightClass := 700;
     usWidthClass := 5;
     fsSelection := 32;
     sTypoAscender := 1491;
     sTypoDescender := -431;
     version := 3;
     sxHeight := 1062;
     sCapHeight := Some 1466 |}.

Definition arial_font : TTFont :=
  {| unitsPerEm := 2048;
     OS2 := Some bold_os2;
     hhea := {| ascent := 1854; descent := -434 |};
     subfamily_name := Some "Bold";
     fvar_axes := None;
     getBestCmap :=
       Some (list_to_map
               [ (65%N, "A"); (86%N, "V"); (102%N, "f"); (105%N, "i");
                 (8364%N, "Euro") ]);
     hmtx_metrics :=
       list_to_map
         [ ("A", (1479, 0)); ("V", (1366, 0)); ("f", (682, 41));
           ("i", (569, 147)); ("fi", (1139, 41)) ];
     kernTables :=
       Some [ list_to_map [ (("f", "i"), -30) ];
              list_to_map [ (("A", "V"), -152); (("f", "i"), -10) ];
              list_to_map [ (("A", "V"), -100) ] ];
     GSUB :=
       Some [ {| LookupType := 1; SubTable := [Direct OtherSubst] |};
              {| LookupType := 7;
                 SubTable :=
                   [ Extension 4
                       (LigatureSubst
                          [ ("f", [ {| Component := ["i"];
                                       LigGlyph := "fi" |} ]) ]) ] |} ];
     glyf :=
       Some (list_to_map
               [ ("A", Some {| xMin := 0; yMin := 0; xMax := 1479; yMax := 1466 |});
                 ("V", Some {| xMin := 0; yMin := 0; xMax := 1366; yMax := 1466 |});
                 ("space", None) ]);
     getGlyphSet := Some ∅;
     getGlyphNames := ["A"; "V"; "f"; "i"; "fi"; "Euro"] |}.

(** A symbol face without a usable character map and without [OS/2]. *)
Definition symbol_font : TTFont :=
  {| unitsPerEm := 1000;
     OS2 := None;
     hhea := {| ascent := 800; descent := -200 |};
     subfamily_name := None;
     fvar_axes := None;
     getBestCmap := None;
     hmtx_metrics := list_to_map [ (".notdef", (500, 0)) ];
     kernTables := None;
     GSUB := None;
     glyf := None;
     getGlyphSet := Some ∅;
     getGlyphNames := [".notdef"] |}.

(** A face with typographic values 600 and -343 on an em of 1000. *)
Definition rounding_font : TTFont :=
  {| unitsPerEm := 1000;
     OS2 := Some {| usWeightClass := 400;
                    usWidthClass := 5;
                    fsSelection := 64;
                    sTypoAscender := 600;
                    sTypoDescender := -343;
                    version := 3;
                    sxHeight := 450;
                    sCapHeight := Some 700 |};
     hhea := {| ascent := 800; descent := -200 |};
     subfamily_name := Some "Regular";
     fvar_axes := None;
     getBestCmap := Some ∅;
     hmtx_metrics := ∅;
     kernTables := None;
     GSUB := None;
     glyf := None;
     getGlyphSet := Some ∅;
     getGlyphNames := [] |}.

(** The font-table service on the example files. *)
Definition with_style (weight width selection : Z) (sub : string) : TTFont :=
  {| unitsPerEm := 2048;
     OS2 := Some {| usWeightClass := weight;
                    usWidthClass := width;
                    fsSelection := selection;
                    sTypoAscender := 1491;
                    sTypoDescender := -431;
                    version := 3;
                    sxHeight := 1062;
                    sCapHeight := Some 1466 |};
     hhea := {| ascent := 1854; descent := -434 |};
     subfamily_name := Some sub;
     fvar_axes := None;
     getBestCmap := Some ∅;
     hmtx_metrics := ∅;
     kernTables := None;
     GSUB := None;
     glyf := None;
     getGlyphSet := Some ∅;
     getGlyphNames := [] |}.

(** A collection whose best sub-faces match two of the three
    attributes of [arial] (bold, normal width, upright). *)
Definition collection : list TTFont :=
  [ with_style 400 3 1 "Condensed Italic";
    with_style 400 5 0 "Regular";
    with_style 700 5 1 "Bold Italic";
    with_style 700 3 0 "Bold Condensed" ].

(** A collection in which no sub-face matches any attribute. *)
Definition collection_unrelated : list TTFont :=
  [ with_style 300 3 1 "Light Condensed Italic";
    with_style 400 4 1 "Semi-Condensed Oblique" ].

Definition open_file (fname : string) : FontFile :=
  if decide (fname = "arialbd.ttf") then SingleFace arial_font
  else if decide (fname = "symbola.ttf") then SingleFace symbol_font
  else if decide (fname = "family.ttc") then FaceCollection collection
  else if decide (fname = "other.ttc") then FaceCollection collection_unrelated
  else Unreadable.

Definition instantiateVariableFont (font : TTFont)
    (location : Py.dict string fcval) : result TTFont := Ok font.

(** A found face whose file is a collection. *)
Definition in_collection (fname : string) : Found :=
  {| FAMILY := VStr "Family";
     WEIGHT := VInt FC.WEIGHT_BOLD;
     SLANT := VInt FC.SLANT_ROMAN;
     WIDTH := VInt FC.WIDTH_NORMAL;
     FILE := fname;
     CHARSET := ∅ |}.

End Ex.

(** * Properties *)

Local Close Scope string_scope.

(** ** [nearest_val] *)

Section NearestVal.
Context {A : Type} (f : A -> Z).

(** [min_scan] returns an element of the scanned list that minimises
    [f], and every element before it is strictly larger under [f]. *)
Lemma min_scan_first (l : list A) : forall best,
  exists i,
    (best :: l) !! i = Some (Py.min_scan f best l)
    /\ (forall j x, (best :: l) !! j = Some x ->
          f (Py.min_scan f best l) <= f x)
    /\ (forall j x, (j < i)%nat -> (best :: l) !! j = Some x ->
          f (Py.min_scan f best l) < f x).
Proof.
  induction l as [|x l IH]; intros best; simpl.
  - exists 0%nat. split; [reflexivity|]. split.
    + intros [|j] y Hy; simpl in Hy; [|discriminate]. injection Hy as <-. lia.
    + intros j y Hj. lia.
  - destruct (Z.ltb_spec (f x) (f best)) as [Hlt|Hge].
    + destruct (IH x) as (i & Hi & Hmin & Hfirst).
      exists (S i). split; [exact Hi|].
      assert (Hx : f (Py.min_scan f x l) <= f x) by (apply (Hmin 0%nat); reflexivity).
      split.
      * intros [|j] y Hy; simpl in Hy.
        -- injection Hy as <-. lia.
        -- eapply Hmin; exact Hy.
      * intros [|j] y Hj Hy; simpl in Hy.
        -- injection Hy as <-. lia.
        -- apply (Hfirst j); [lia|exact Hy].
    + destruct (IH best) as (i & Hi & Hmin & Hfirst).
      assert (Hb : f (Py.min_scan f best l) <= f best)
        by (apply (Hmin 0%nat); reflexivity).
      destruct i as [|i].
      * exists 0%nat. split; [exact Hi|]. split; [|intros; lia].
        intros [|[|j]] y Hy; simpl in Hy.
        -- injection Hy as <-. lia.
        -- injection Hy as <-. lia.
        -- apply (Hmin (S j)). exact Hy.
      * exists (S (S i)). split; [exact Hi|]. split.
        -- intros [|[|j]] y Hy; simpl in Hy.
           ++ injection Hy as <-. lia.
           ++ injection Hy as <-. lia.
           ++ apply (Hmin (S j)). exact Hy.
        -- assert (Hs : f (Py.min_scan f best l) < f best)
             by (apply (Hfirst 0%nat); [lia|reflexivity]).
           intros [|[|j]] y Hj Hy; simpl in Hy.
           ++ injection Hy as <-. lia.
           ++ injection Hy as <-. lia.
           ++ apply (Hfirst (S j)); [lia|exact Hy].
Qed.

End NearestVal.

(** [d.get(k)] returns the value of the first entry with key [k]. *)
Lemma get_first_entry {K V} `{EqDecision K} (d : Py.dict K V) : forall i k v,
  d !! i = Some (k, v) ->
  (forall j k' v', (j < i)%nat -> d !! j = Some (k', v') -> k' <> k) ->
  Py.get d k = Some v.
Proof.
  induction d as [|[k0 v0] d IH]; intros i k v Hi Hbefore; [discriminate|].
  simpl. destruct i as [|i]; simpl in Hi.
  - injection Hi as -> ->. rewrite decide_True; reflexivity.
  - rewrite decide_False.
    + apply (IH i); [exact Hi|]. intros j k' v' Hj Hl.
      apply (Hbefore (S j) k' v'); [lia|exact Hl].
    + apply (Hbefore 0%nat k0 v0); [lia|reflexivity].
Qed.

(** C6. On a non-empty table, [nearest_val] returns the value of a key
    at minimum absolute difference from the query, and of all such keys
    the first one in the iteration order of the table; on the table
    [{100:a, 300:b, 500:c}] the query 180 returns [a] and the query 250
    returns [b]. *)
Theorem nearest_val_first_minimum {V} (dictv : Py.dict Z V) (q : Z) (a b c : V) :
  (dictv <> [] ->
   exists i k v,
     dictv !! i = Some (k, v)
     /\ nearest_val dictv q = Ok v
     /\ (forall j k' v', dictv !! j = Some (k', v') ->
           Z.abs (k - q) <= Z.abs (k' - q))
     /\ (forall j k' v', (j < i)%nat -> dictv !! j = Some (k', v') ->
           Z.abs (k - q) < Z.abs (k' - q)))
  /\ nearest_val [(100, a); (300, b); (500, c)] 180 = Ok a
  /\ nearest_val [(100, a); (300, b); (500, c)] 250 = Ok b.
Proof.
  split; [|split; reflexivity].
  intros Hne. destruct dictv as [|[k0 v0] d]; [congruence|].
  unfold nearest_val, Py.keys. simpl map. cbn [Py.min_key rbind].
  set (f := fun x : Z => Z.abs (x - q)).
  destruct (min_scan_first f (map fst d) k0) as (i & Hi & Hmin & Hfirst).
  set (k := Py.min_scan f k0 (map fst d)) in *.
  change (k0 :: map fst d) with (map fst ((k0, v0) :: d)) in Hi, Hmin, Hfirst.
  rewrite list_lookup_fmap in Hi.
  destruct (((k0, v0) :: d) !! i) as [[k1 v1]|] eqn:Hentry; [|discriminate].
  simpl in Hi. injection Hi as Hk. subst k1.
  assert (Hle : forall j k' v', ((k0, v0) :: d) !! j = Some (k', v') -> f k <= f k').
  { intros j k' v' Hl. apply (Hmin j). rewrite list_lookup_fmap, Hl. reflexivity. }
  assert (Hlt : forall j k' v', (j < i)%nat ->
            ((k0, v0) :: d) !! j = Some (k', v') -> f k < f k').
  { intros j k' v' Hj Hl. apply (Hfirst j); [exact Hj|].
    rewrite list_lookup_fmap, Hl. reflexivity. }
  exists i, k, v1. split; [exact Hentry|]. split; [|split; assumption].
  unfold Py.getitem.
  rewrite (get_first_entry ((k0, v0) :: d) i k v1 Hentry); [reflexivity|].
  intros j k' v' Hj Hl Heq. specialize (Hlt j k' v' Hj Hl). subst k'. lia.
Qed.

(** The lookup on the weight table of the resolver at a weight between
    two tiers. *)
Lemma nearest_val_first_minimum_witness :
  lu.FCWGT_to_CSSWGT <> [] /\
  exists i k v,
    lu.FCWGT_to_CSSWGT !! i = Some (k, v)
    /\ nearest_val lu.FCWGT_to_CSSWGT 190 = Ok v
    /\ (forall j k' v', lu.FCWGT_to_CSSWGT !! j = Some (k', v') ->
          Z.abs (k - 190) <= Z.abs (k' - 190))
    /\ (forall j k' v', (j < i)%nat -> lu.FCWGT_to_CSSWGT !! j = Some (k', v') ->
          Z.abs (k - 190) < Z.abs (k' - 190)).
Proof.
  split; [discriminate|].
  apply (nearest_val_first_minimum lu.FCWGT_to_CSSWGT 190 "a"%string "b"%string "c"%string).
  discriminate.
Defined.

(** ** Dictionaries keyed by characters *)

Lemma remove_dups_length (l : list N) : (length (remove_dups l) <= length l)%nat.
Proof.
  induction l as [|x l IH]; simpl; [lia|].
  destruct (decide_rel elem_of x l); simpl; lia.
Qed.

Section CharDicts.
Context {V : Type}.

Lemma insert_if_lookup (cond : N -> bool) (v : V) (acc : gmap N V) (x k : N) :
  (if cond x then <[x := v]> acc else acc) !! k
  = if bool_decide (x = k) && cond k then Some v else acc !! k.
Proof.
  destruct (decide (x = k)) as [->|Hne].
  - rewrite bool_decide_eq_true_2 by reflexivity. simpl.
    destruct (cond k); [apply lookup_insert_eq|reflexivity].
  - rewrite bool_decide_eq_false_2 by exact Hne. simpl.
    destruct (cond x); [apply lookup_insert_ne; exact Hne|reflexivity].
Qed.

Lemma dict_comp_fold (ks : list N) (cond : N -> bool) (v : V) :
  forall (acc : gmap N V) k,
  fold_left (fun acc k => if cond k then <[k := v]> acc else acc) ks acc !! k
  = if bool_decide (k ∈ ks) && cond k then Some v else acc !! k.
Proof.
  induction ks as [|x ks IH]; intros acc k; simpl.
  - reflexivity.
  - rewrite IH, insert_if_lookup.
    destruct (decide (k ∈ ks)) as [Hin|Hin].
    + rewrite (bool_decide_eq_true_2 (k ∈ ks)) by exact Hin.
      rewrite (bool_decide_eq_true_2 (k ∈ x :: ks)) by (right; exact Hin).
      simpl. destruct (cond k); [reflexivity|].
      rewrite andb_false_r. reflexivity.
    + rewrite (bool_decide_eq_false_2 (k ∈ ks)) by exact Hin. simpl.
      destruct (decide (x = k)) as [->|Hne].
      * rewrite (bool_decide_eq_true_2 (k ∈ k :: ks)) by left.
        rewrite bool_decide_eq_true_2 by reflexivity. reflexivity.
      * rewrite (bool_decide_eq_false_2 (x = k)) by exact Hne.
        rewrite (bool_decide_eq_false_2 (k ∈ x :: ks)); [reflexivity|].
        intros Hel. apply elem_of_cons in Hel as [->|Hel]; [congruence|tauto].
Qed.

(** A comprehension has exactly the keys of the list that pass the
    condition. *)
Lemma dict_comp_lookup (ks : list N) (cond : N -> bool) (v : V) (k : N) :
  Py.dict_comp ks cond v !! k
  = if bool_decide (k ∈ ks) && cond k then Some v else None.
Proof. unfold Py.dict_comp. rewrite dict_comp_fold, lookup_empty. reflexivity. Qed.

(** [d.update(d2)]: the entries of [d2] replace those of [d]. *)
Lemma update_lookup (d d2 : gmap N V) (k : N) :
  Py.update d d2 !! k
  = match d2 !! k with
    | Some x => Some x
    | None => d !! k
    end.
Proof.
  unfold Py.update. rewrite lookup_union.
  destruct (d2 !! k), (d !! k); reflexivity.
Qed.

(** A dictionary whose keys are among the characters of a list has at
    most as many entries as the list is long. *)
Lemma size_le_length (d : gmap N V) (chars : list N) :
  (forall c, is_Some (d !! c) -> c ∈ chars) ->
  (size d <= length chars)%nat.
Proof.
  intros Hkeys. rewrite <- (size_dom (D := gset N)).
  transitivity (size (list_to_set (C := gset N) (remove_dups chars))).
  - apply subseteq_size. intros c Hc. apply elem_of_dom in Hc.
    apply elem_of_list_to_set, elem_of_remove_dups, Hkeys, Hc.
  - rewrite size_list_to_set by apply NoDup_remove_dups.
    apply remove_dups_length.
Qed.

(** When a character of the list is not a key, the dictionary is
    strictly smaller than the list is long. *)
Lemma size_lt_length (d : gmap N V) (chars : list N) (c : N) :
  (forall c, is_Some (d !! c) -> c ∈ chars) ->
  c ∈ chars -> d !! c = None ->
  (size d < length chars)%nat.
Proof.
  intros Hkeys Hc Hnone. rewrite <- (size_dom (D := gset N)).
  apply Nat.lt_le_trans
    with (size (list_to_set (C := gset N) (remove_dups chars))).
  - apply subset_size. split.
    + intros x Hx. apply elem_of_dom in Hx.
      apply elem_of_list_to_set, elem_of_remove_dups, Hkeys, Hx.
    + intros Hsub. specialize (Hsub c).
      rewrite elem_of_list_to_set, elem_of_remove_dups, elem_of_dom in Hsub.
      specialize (Hsub Hc). rewrite Hnone in Hsub. destruct Hsub; discriminate.
  - rewrite size_list_to_set by apply NoDup_remove_dups.
    apply remove_dups_length.
Qed.

(** Over a duplicate-free list, a dictionary with exactly the characters
    of the list as keys has the length of the list as size. *)
Lemma size_eq_length (d : gmap N V) (chars : list N) :
  NoDup chars ->
  (forall c, is_Some (d !! c) -> c ∈ chars) ->
  (forall c, c ∈ chars -> is_Some (d !! c)) ->
  size d = length chars.
Proof.
  intros Hnd Hkeys Hall. rewrite <- (size_dom (D := gset N)).
  rewrite <- (size_list_to_set (C := gset N) chars Hnd). f_equal.
  apply set_eq. intros c. rewrite elem_of_dom, elem_of_list_to_set.
  split; [apply Hkeys|apply Hall].
Qed.

End CharDicts.

(** ** The font resolver *)

Ltac unfold_m :=
  unfold bind, ret, lift, get_world, set_truefonts, set_truefontsfc,
    set_fontcharsets, truefonts_getitem, fontcharsets_getitem, new_Style,
    items_of, conf_font_match, conf_font_sort in *.

Section ResolverFacts.
Variable font_match : Pattern -> Found.
Variable font_sort : Pattern -> list Found.
Variable re_escape : string -> string.

(** A call of [get_true_font] on a cached style returns the cached
    reference and changes nothing. *)
Lemma get_true_font_cached (sty : Style) (w : World) (v : option nat) :
  truefonts w !! sty = Some v ->
  get_true_font font_match re_escape sty w = (Ok v, w).
Proof.
  intros Hc. unfold get_true_font. unfold_m.
  rewrite decide_False by (rewrite Hc; discriminate).
  rewrite Hc. reflexivity.
Qed.

(** After a call that returned, the style is cached with the returned
    reference. *)
Lemma get_true_font_caches (sty : Style) (w w' : World) (v : option nat) :
  get_true_font font_match re_escape sty w = (Ok v, w') ->
  truefonts w' !! sty = Some v.
Proof.
  unfold get_true_font. unfold_m.
  destruct (decide (truefonts w !! sty = None)) as [Hn|Hs].
  - destruct (css_to_fc_pattern re_escape sty) as [pat|e]; [|discriminate].
    unfold fcfound_to_css. unfold_m.
    destruct (css_of_found (font_match pat)) as [[items|]|e]; simpl;
      try discriminate.
    rewrite lookup_app_r by reflexivity. rewrite Nat.sub_diag. simpl.
    rewrite lookup_insert_eq. intros H. injection H as <- <-. simpl.
    apply lookup_insert_eq.
  - destruct (truefonts w !! sty) as [v0|] eqn:Hc; [|congruence].
    intros H. injection H as <- <-. exact Hc.
Qed.

(** C3. When a call of [get_true_font] has returned, a second call on a
    style with the same items returns the same reference (the same
    [Style] object of the heap, or [None] again) and leaves the resolver,
    the heap and the query log unchanged: the matching service is not
    asked again. *)
Theorem get_true_font_idempotent (sty sty' : Style) (w w' : World)
    (v : option nat) :
  get_true_font font_match re_escape sty w = (Ok v, w') ->
  sty' = sty ->
  get_true_font font_match re_escape sty' w' = (Ok v, w')
  /\ queries (snd (get_true_font font_match re_escape sty' w')) = queries w'.
Proof.
  intros Hfirst ->.
  pose proof (get_true_font_caches _ _ _ _ Hfirst) as Hc.
  rewrite (get_true_font_cached _ _ _ Hc). split; reflexivity.
Qed.

End ResolverFacts.

(** The first call on an uncached style asks the matching service once
    and creates one [Style] object; the second call returns that very
    object without a query. *)
Lemma get_true_font_idempotent_witness :
  let first := get_true_font (fun _ => Ex.arial) Ex.re_escape Ex.sty Ex.world0 in
  first = (Ok (Some 0%nat), snd first)
  /\ length (queries (snd first)) = 1%nat
  /\ get_true_font (fun _ => Ex.arial) Ex.re_escape Ex.sty (snd first)
     = (Ok (Some 0%nat), snd first)
  /\ queries (snd (get_true_font (fun _ => Ex.arial) Ex.re_escape Ex.sty
                     (snd first)))
     = queries (snd first).
Proof.
  intros first.
  assert (H1 : first = (Ok (Some 0%nat), snd first)) by (vm_compute; reflexivity).
  split; [exact H1|]. split; [vm_compute; reflexivity|].
  exact (get_true_font_idempotent (fun _ => Ex.arial) Ex.re_escape
           Ex.sty Ex.sty Ex.world0 (snd first) (Some 0%nat) H1 eq_refl).
Defined.

(** C4 (the code departs from the claim). On a best match with a
    list-valued weight, [fcfound_to_css] gives [None], and the first call
    of [get_true_font] then raises [AttributeError] on [truefont.items()],
    after it has cached [None] for the style; only a second call returns
    [None]. *)
Theorem get_true_font_ambiguous_raises :
  let first := get_true_font (fun _ => Ex.variable) Ex.re_escape Ex.sty Ex.world0 in
  css_of_found Ex.variable = Ok None
  /\ fst first = Raise AttributeError
  /\ truefonts (snd first) !! Ex.sty = Some None
  /\ fst (get_true_font (fun _ => Ex.variable) Ex.re_escape Ex.sty (snd first))
     = Ok None.
Proof.
  vm_compute. repeat split; reflexivity.
Qed.

Section ByChar.
Variable font_sort : Pattern -> list Found.
Variable re_escape : string -> string.

(** The first phase reads the caches only. *)
Lemma primary_hits_state (tf : option nat) (chars : list N) :
  forall d w, snd (primary_hits tf chars d w) = w.
Proof.
  induction chars as [|k chars IH]; intros d w; simpl; [reflexivity|].
  unfold_m. destruct tf as [r|]; [|reflexivity].
  destruct (heap w !! r) as [items|]; [|reflexivity].
  destruct (fontcharsets w !! items) as [cs|]; [|reflexivity].
  apply IH.
Qed.

Lemma primary_hits_run (r : nat) (items : Style) (cs : gset N) (chars : list N) :
  forall d w,
  heap w !! r = Some items ->
  fontcharsets w !! items = Some cs ->
  primary_hits (Some r) chars d w
  = (Ok (fold_left
           (fun acc k => if bool_decide (k ∈ cs) then <[k := Some r]> acc else acc)
           chars d), w).
Proof.
  induction chars as [|k chars IH]; intros d w Hh Hf; simpl; [reflexivity|].
  unfold_m. rewrite Hh, Hf. apply IH; assumption.
Qed.

Lemma primary_hits_inv (tf : option nat) (chars : list N) d w d' w' :
  primary_hits tf chars d w = (Ok d', w') ->
  chars <> [] ->
  exists r items cs,
    tf = Some r /\ heap w !! r = Some items /\ fontcharsets w !! items = Some cs.
Proof.
  destruct chars as [|k chars]; [congruence|]. intros Hrun _.
  simpl in Hrun. unfold_m. destruct tf as [r|]; [|discriminate].
  destruct (heap w !! r) as [items|] eqn:Hh; [|discriminate].
  destruct (fontcharsets w !! items) as [cs|] eqn:Hf; [|discriminate].
  exists r, items, cs. repeat split; assumption.
Qed.

(** One face of the walk whose attributes are scalar: a new [Style]
    object, its coverage cached, the uncovered characters of its
    coverage set assigned, and the test for the early exit. *)
Lemma walk_found_cons (chars : list N) (f : Found) (found : list Found)
    (items : Style) d w :
  css_of_found f = Ok (Some items) ->
  walk_found chars (f :: found) d w
  = let w1 := {| truefonts := truefonts w;
                 truefontsfc := truefontsfc w;
                 fontcharsets := <[items := CHARSET f]> (fontcharsets w);
                 heap := heap w ++ [items];
                 queries := queries w |} in
    let d1 := Py.update d
                (Py.dict_comp chars
                   (fun k => bool_decide (k ∈ CHARSET f) && not_in d k)
                   (Some (length (heap w)))) in
    if (size d1 =? length chars)%nat then (Ok d1, w1)
    else walk_found chars found d1 w1.
Proof.
  intros Hcss. simpl. unfold fcfound_to_css. unfold_m. rewrite Hcss. simpl.
  rewrite lookup_app_r by reflexivity. rewrite Nat.sub_diag. simpl.
  destruct (size _ =? length chars)%nat; reflexivity.
Qed.

(** A face without scalar attributes stops the walk with an exception. *)
Lemma walk_found_cons_fails (chars : list N) (f : Found) (found : list Found) d w :
  ~ scalar_face f ->
  exists e, walk_found chars (f :: found) d w = (Raise e, w).
Proof.
  intros Hns. simpl. unfold fcfound_to_css. unfold_m.
  destruct (css_of_found f) as [[items|]|e] eqn:Hcss; simpl.
  - exfalso. apply Hns. exists items. exact Hcss.
  - eauto.
  - eauto.
Qed.

Lemma not_in_spec {V} (d : gmap N V) (k : N) :
  not_in d k = true <-> d !! k = None.
Proof. unfold not_in. destruct (d !! k); split; congruence. Qed.

(** The dictionary after one face. *)
Lemma walk_step_lookup (chars : list N) (cs : gset N) (r : nat)
    (d : gmap N (option nat)) (c : N) :
  Py.update d
    (Py.dict_comp chars (fun k => bool_decide (k ∈ cs) && not_in d k) (Some r))
  !! c
  = match d !! c with
    | Some x => Some x
    | None => if bool_decide (c ∈ chars) && bool_decide (c ∈ cs)
              then Some (Some r) else None
    end.
Proof.
  rewrite update_lookup, dict_comp_lookup. unfold not_in.
  destruct (d !! c) as [x|].
  - rewrite !andb_false_r. reflexivity.
  - rewrite andb_true_r.
    destruct (bool_decide (c ∈ chars) && bool_decide (c ∈ cs)); reflexivity.
Qed.

(** The walk over the ranked faces: entries are kept, a character
    without an entry gets the first face of the list that covers it, and
    stays without an entry when no face covers it. *)
Lemma walk_found_spec (chars : list N) (found : list Found) :
  forall d w d' w',
  (forall c, is_Some (d !! c) -> c ∈ chars) ->
  walk_found chars found d w = (Ok d', w') ->
  heap w `prefix_of` heap w'
  /\ (forall c, is_Some (d' !! c) -> c ∈ chars)
  /\ (forall c x, d !! c = Some x -> d' !! c = Some x)
  /\ (forall c, c ∈ chars -> d !! c = None ->
        match List.find (fun f => bool_decide (c ∈ CHARSET f)) found with
        | Some f =>
            exists r items,
              css_of_found f = Ok (Some items)
              /\ d' !! c = Some (Some r) /\ heap w' !! r = Some items
        | None => d' !! c = None
        end).
Proof.
  induction found as [|f found IH]; intros d w d' w' Hkeys Hrun.
  - simpl in Hrun. unfold_m. injection Hrun as <- <-.
    split; [reflexivity|]. split; [exact Hkeys|]. split; [auto|].
    intros c _ Hnone. exact Hnone.
  - destruct (css_of_found f) as [[items|]|e] eqn:Hcss.
    2: { destruct (walk_found_cons_fails chars f found d w) as [e He].
         - intros [items Hi]. congruence.
         - congruence. }
    2: { destruct (walk_found_cons_fails chars f found d w) as [e' He].
         - intros [items Hi]. congruence.
         - congruence. }
    rewrite (walk_found_cons chars f found items d w Hcss) in Hrun.
    cbv zeta in Hrun.
    set (r := length (heap w)) in *.
    set (w1 := {| truefonts := truefonts w; truefontsfc := truefontsfc w;
                  fontcharsets := <[items := CHARSET f]> (fontcharsets w);
                  heap := heap w ++ [items]; queries := queries w |}) in *.
    set (d1 := Py.update d _) in *.
    assert (Hd1 : forall c, d1 !! c
              = match d !! c with
                | Some x => Some x
                | None => if bool_decide (c ∈ chars) && bool_decide (c ∈ CHARSET f)
                          then Some (Some r) else None
                end) by (intros c; apply walk_step_lookup).
    assert (Hkeys1 : forall c, is_Some (d1 !! c) -> c ∈ chars).
    { intros c. rewrite Hd1. destruct (d !! c) eqn:Hdc.
      - intros _. apply Hkeys. rewrite Hdc. eauto.
      - destruct (bool_decide_reflect (c ∈ chars)); simpl; [auto|].
        intros [? ?]; discriminate. }
    assert (Hkeep1 : forall c x, d !! c = Some x -> d1 !! c = Some x).
    { intros c x Hx. rewrite Hd1, Hx. reflexivity. }
    assert (Hr : heap w1 !! r = Some items).
    { simpl. unfold r. rewrite lookup_app_r by reflexivity.
      rewrite Nat.sub_diag. reflexivity. }
    destruct (size d1 =? length chars)%nat eqn:Hsize.
    + injection Hrun as <- <-.
      split; [apply prefix_app_r; reflexivity|].
      split; [exact Hkeys1|]. split; [exact Hkeep1|].
      intros c Hc Hnone. simpl.
      destruct (bool_decide_reflect (c ∈ CHARSET f)) as [Hcov|Hcov].
      * exists r, items. split; [exact Hcss|]. split; [|exact Hr].
        rewrite Hd1, Hnone.
        rewrite (bool_decide_eq_true_2 _ Hc), (bool_decide_eq_true_2 _ Hcov).
        reflexivity.
      * exfalso. apply Nat.eqb_eq in Hsize.
        pose proof (size_lt_length d1 chars c Hkeys1 Hc) as Hlt.
        rewrite Hd1, Hnone, (bool_decide_eq_false_2 _ Hcov), andb_false_r in Hlt.
        specialize (Hlt eq_refl). lia.
    + destruct (IH d1 w1 d' w' Hkeys1 Hrun) as (Hpre & Hkeys' & Hkeep & Hnew).
      split.
      { etransitivity; [|exact Hpre]. apply prefix_app_r. reflexivity. }
      split; [exact Hkeys'|]. split; [intros c x Hx; apply Hkeep, Hkeep1, Hx|].
      intros c Hc Hnone. simpl.
      destruct (bool_decide_reflect (c ∈ CHARSET f)) as [Hcov|Hcov].
      * exists r, items. split; [exact Hcss|]. split.
        -- apply Hkeep. rewrite Hd1, Hnone.
           rewrite (bool_decide_eq_true_2 _ Hc), (bool_decide_eq_true_2 _ Hcov).
           reflexivity.
        -- apply (prefix_lookup_Some _ _ _ _ Hr Hpre).
      * apply Hnew; [exact Hc|].
        rewrite Hd1, Hnone, (bool_decide_eq_false_2 _ Hcov), andb_false_r.
        reflexivity.
Qed.

(** The walk returns when every ranked face has scalar attributes. *)
Lemma walk_found_total (chars : list N) (found : list Found) :
  Forall scalar_face found ->
  forall d w, exists d' w', walk_found chars found d w = (Ok d', w').
Proof.
  induction 1 as [|f found [items Hcss] _ IH]; intros d w.
  - exists d, w. reflexivity.
  - rewrite (walk_found_cons chars f found items d w Hcss). cbv zeta.
    destruct (size _ =? length chars)%nat; [eauto|apply IH].
Qed.

(** The early exit: once the faces walked so far, with the entries
    already present, give every character an entry, the faces after them
    are not looked at. *)
Lemma walk_found_stops (chars : list N) (f : Found) (post : list Found) :
  NoDup chars ->
  forall (pre : list Found) (d : gmap N (option nat)) (w : World),
  (forall c, is_Some (d !! c) -> c ∈ chars) ->
  (forall c, c ∈ chars ->
     is_Some (d !! c) \/ exists g, g ∈ pre ++ [f] /\ c ∈ CHARSET g) ->
  walk_found chars (pre ++ f :: post) d w = walk_found chars (pre ++ [f]) d w.
Proof.
  intros Hnd. induction pre as [|g pre IH]; intros d w Hkeys Hcov.
  - simpl app. destruct (css_of_found f) as [[items|]|e] eqn:Hcss.
    + rewrite !(walk_found_cons chars f _ items d w Hcss). cbv zeta.
      set (d1 := Py.update d _).
      assert (Hsize : size d1 = length chars).
      { apply size_eq_length; [exact Hnd| |].
        - intros c. unfold d1. rewrite walk_step_lookup.
          destruct (d !! c) eqn:Hdc.
          + intros _. apply Hkeys. rewrite Hdc. eauto.
          + destruct (bool_decide_reflect (c ∈ chars)); simpl; [auto|].
            intros [? ?]; discriminate.
        - intros c Hc. unfold d1. rewrite walk_step_lookup.
          destruct (Hcov c Hc) as [[x Hx]|(g & Hg & Hcg)].
          + rewrite Hx. eauto.
          + apply list_elem_of_singleton in Hg. subst g.
            destruct (d !! c); [eauto|].
            rewrite (bool_decide_eq_true_2 _ Hc), (bool_decide_eq_true_2 _ Hcg).
            simpl. eauto. }
      apply Nat.eqb_eq in Hsize. rewrite Hsize. reflexivity.
    + simpl. unfold fcfound_to_css. unfold_m. rewrite Hcss. reflexivity.
    + simpl. unfold fcfound_to_css. unfold_m. rewrite Hcss. reflexivity.
  - simpl app. destruct (css_of_found g) as [[items|]|e] eqn:Hcss.
    + rewrite !(walk_found_cons chars g _ items d w Hcss). cbv zeta.
      set (d1 := Py.update d _).
      destruct (size d1 =? length chars)%nat; [reflexivity|].
      apply IH.
      * intros c. unfold d1. rewrite walk_step_lookup.
        destruct (d !! c) eqn:Hdc.
        -- intros _. apply Hkeys. rewrite Hdc. eauto.
        -- destruct (bool_decide_reflect (c ∈ chars)); simpl; [auto|].
           intros [? ?]; discriminate.
      * intros c Hc. unfold d1. rewrite walk_step_lookup.
        destruct (Hcov c Hc) as [[x Hx]|(g' & Hg & Hcg)].
        -- rewrite Hx. left. eauto.
        -- simpl in Hg. apply elem_of_cons in Hg as [->|Hg].
           ++ left. destruct (d !! c); [eauto|].
              rewrite (bool_decide_eq_true_2 _ Hc), (bool_decide_eq_true_2 _ Hcg).
              simpl. eauto.
           ++ right. exists g'. split; assumption.
    + simpl. unfold fcfound_to_css. unfold_m. rewrite Hcss. reflexivity.
    + simpl. unfold fcfound_to_css. unfold_m. rewrite Hcss. reflexivity.
Qed.

(** The first phase: the characters of the cached primary coverage set
    get the cached primary face. *)
Lemma primary_phase_spec (sty : Style) (chars : list N) (w : World) d0 w0 :
  match truefonts w !! sty with
  | Some truefont => primary_hits truefont chars ∅
  | None => ret ∅
  end w = (Ok d0, w0) ->
  w0 = w
  /\ forall c,
       d0 !! c
       = match primary_coverage w sty with
         | Some (r, cs) =>
             if bool_decide (c ∈ chars) && bool_decide (c ∈ cs)
             then Some (Some r) else None
         | None => None
         end.
Proof.
  unfold primary_coverage.
  destruct (truefonts w !! sty) as [tf|] eqn:Htf.
  - intros Hrun. split.
    { pose proof (primary_hits_state tf chars ∅ w) as Hs.
      rewrite Hrun in Hs. exact Hs. }
    destruct chars as [|k chars].
    + simpl in Hrun. unfold_m. injection Hrun as <- _. intros c.
      rewrite lookup_empty.
      destruct tf as [r|]; [|reflexivity].
      destruct (heap w !! r) as [items|]; [|reflexivity].
      destruct (fontcharsets w !! items); reflexivity.
    + destruct (primary_hits_inv tf (k :: chars) ∅ w d0 w0 Hrun)
        as (r & items & cs & -> & Hh & Hf); [discriminate|].
      rewrite (primary_hits_run r items cs (k :: chars) ∅ w Hh Hf) in Hrun.
      assert (Hd0 : d0 = fold_left
                (fun acc k => if bool_decide (k ∈ cs) then <[k := Some r]> acc else acc)
                (k :: chars) ∅) by congruence.
      intros c. rewrite Hh, Hf, Hd0.
      rewrite (dict_comp_fold (k :: chars) (fun k => bool_decide (k ∈ cs))).
      rewrite lookup_empty. reflexivity.
  - unfold_m. intros Hrun. injection Hrun as <- <-. split; [reflexivity|].
    intros c. apply lookup_empty.
Qed.

(** The first phase returns when the style is not cached, or cached
    with a face whose coverage set is cached. *)
Lemma primary_phase_total (sty : Style) (chars : list N) (w : World) :
  truefonts w !! sty = None \/ is_Some (primary_coverage w sty) ->
  exists d0,
    match truefonts w !! sty with
    | Some truefont => primary_hits truefont chars ∅
    | None => ret ∅
    end w = (Ok d0, w).
Proof.
  intros [Hnone|[[r cs] Hcov]].
  - rewrite Hnone. eexists. reflexivity.
  - unfold primary_coverage in Hcov.
    destruct (truefonts w !! sty) as [[r'|]|]; try discriminate.
    destruct (heap w !! r') as [items|] eqn:Hh; [|discriminate].
    destruct (fontcharsets w !! items) as [cs'|] eqn:Hf; [|discriminate].
    rewrite (primary_hits_run r' items cs' chars ∅ w Hh Hf). eauto.
Qed.

(** [get_true_font_by_char] after a first phase that returned. *)
Lemma by_char_run (sty : Style) (chars : list N) (w : World) d0 :
  match truefonts w !! sty with
  | Some truefont => primary_hits truefont chars ∅
  | None => ret ∅
  end w = (Ok d0, w) ->
  get_true_font_by_char font_sort re_escape sty chars w
  = if (size d0 <? length chars)%nat then
      match css_to_fc_pattern re_escape sty with
      | Raise e => (Raise e, w)
      | Ok pat =>
          match walk_found chars (font_sort pat) d0
                  {| truefonts := truefonts w;
                     truefontsfc := truefontsfc w;
                     fontcharsets := fontcharsets w;
                     heap := heap w;
                     queries := queries w ++ [MatchRanked pat] |} with
          | (Ok d1, w2) =>
              (Ok (if (size d1 <? length chars)%nat
                   then Py.update d1 (Py.dict_comp chars (not_in d1) None)
                   else d1), w2)
          | (Raise e, w2) => (Raise e, w2)
          end
      end
    else (Ok d0, w).
Proof.
  intros Hfirst. unfold get_true_font_by_char.
  unfold bind at 1. unfold get_world at 1. cbv beta iota.
  unfold bind at 1. rewrite Hfirst.
  destruct (size d0 <? length chars)%nat; [|reflexivity].
  unfold bind at 1. unfold lift.
  destruct (css_to_fc_pattern re_escape sty) as [pat|e]; [|reflexivity].
  unfold bind at 1. unfold conf_font_sort.
  unfold bind at 1.
  destruct (walk_found chars (font_sort pat) d0 _) as [[d1|e] w2]; [|reflexivity].
  destruct (size d1 <? length chars)%nat; reflexivity.
Qed.

(** A call that returned went through a first phase that returned. *)
Lemma by_char_first_phase (sty : Style) (chars : list N) (w : World) d w' :
  get_true_font_by_char font_sort re_escape sty chars w = (Ok d, w') ->
  exists d0,
    match truefonts w !! sty with
    | Some truefont => primary_hits truefont chars ∅
    | None => ret ∅
    end w = (Ok d0, w).
Proof.
  unfold get_true_font_by_char.
  unfold bind at 1. unfold get_world at 1. cbv beta iota.
  unfold bind at 1.
  destruct (match truefonts w !! sty with
            | Some truefont => primary_hits truefont chars ∅
            | None => ret ∅
            end w) as [[d0|e] w0] eqn:Hfirst; [|discriminate].
  intros _. exists d0.
  destruct (primary_phase_spec sty chars w d0 w0 Hfirst) as [-> _].
  reflexivity.
Qed.

(** The fill of the characters left without an entry. *)
Lemma fill_none_lookup (chars : list N) (d1 : gmap N (option nat)) (c : N) :
  Py.update d1 (Py.dict_comp chars (not_in d1) None) !! c
  = match d1 !! c with
    | Some x => Some x
    | None => if bool_decide (c ∈ chars) then Some None else None
    end.
Proof.
  rewrite update_lookup, dict_comp_lookup. unfold not_in.
  destruct (d1 !! c).
  - rewrite andb_false_r. reflexivity.
  - rewrite andb_true_r. destruct (bool_decide (c ∈ chars)); reflexivity.
Qed.

(** What a returned mapping holds: only requested characters; the
    cached primary face for the characters of its coverage set; for the
    others the first ranked face that covers them, or [None]. *)
Lemma by_char_spec (sty : Style) (chars : list N) (w : World) d w' :
  get_true_font_by_char font_sort re_escape sty chars w = (Ok d, w') ->
  (forall c, is_Some (d !! c) -> c ∈ chars)
  /\ (forall c, c ∈ chars ->
        (forall r cs, primary_coverage w sty = Some (r, cs) -> c ∈ cs ->
           d !! c = Some (Some r))
        /\ (~ primary_covers w sty c ->
            exists pat,
              css_to_fc_pattern re_escape sty = Ok pat
              /\ match List.find (fun f => bool_decide (c ∈ CHARSET f))
                         (font_sort pat) with
                 | Some f =>
                     exists r items,
                       css_of_found f = Ok (Some items)
                       /\ d !! c = Some (Some r) /\ heap w' !! r = Some items
                 | None => d !! c = Some None
                 end)).
Proof.
  intros Hrun.
  destruct (by_char_first_phase sty chars w d w' Hrun) as [d0 Hfirst].
  rewrite (by_char_run sty chars w d0 Hfirst) in Hrun.
  destruct (primary_phase_spec sty chars w d0 w Hfirst) as [_ Hd0].
  assert (Hkeys0 : forall c, is_Some (d0 !! c) -> c ∈ chars).
  { intros c. rewrite Hd0. destruct (primary_coverage w sty) as [[r cs]|].
    - destruct (bool_decide_reflect (c ∈ chars)); simpl; [auto|].
      intros [? ?]; discriminate.
    - intros [? ?]; discriminate. }
  assert (Hprim : forall c r cs, c ∈ chars ->
            primary_coverage w sty = Some (r, cs) -> c ∈ cs ->
            d0 !! c = Some (Some r)).
  { intros c r cs Hc Hcov Hin. rewrite Hd0, Hcov.
    rewrite (bool_decide_eq_true_2 _ Hc), (bool_decide_eq_true_2 _ Hin).
    reflexivity. }
  assert (Hnot : forall c, ~ primary_covers w sty c -> d0 !! c = None).
  { intros c Hnc. rewrite Hd0.
    destruct (primary_coverage w sty) as [[r cs]|] eqn:Hcov; [|reflexivity].
    destruct (bool_decide_reflect (c ∈ cs)) as [Hin|Hin].
    - exfalso. apply Hnc. exists r, cs. split; [exact Hcov|exact Hin].
    - rewrite andb_false_r. reflexivity. }
  destruct (size d0 <? length chars)%nat eqn:Hsize0.
  - destruct (css_to_fc_pattern re_escape sty) as [pat|e]; [|discriminate].
    destruct (walk_found chars (font_sort pat) d0 _) as [[d1|e] w2] eqn:Hwalk;
      [|discriminate].
    injection Hrun as <- <-.
    destruct (walk_found_spec chars (font_sort pat) d0 _ d1 w2 Hkeys0 Hwalk)
      as (Hpre & Hkeys1 & Hkeep & Hnew).
    assert (Hfinal : forall c x, d1 !! c = Some x ->
              (if (size d1 <? length chars)%nat
               then Py.update d1 (Py.dict_comp chars (not_in d1) None)
               else d1) !! c = Some x).
    { intros c x Hx. destruct (size d1 <? length chars)%nat; [|exact Hx].
      rewrite fill_none_lookup, Hx. reflexivity. }
    split.
    + intros c. destruct (size d1 <? length chars)%nat; [|apply Hkeys1].
      rewrite fill_none_lookup. destruct (d1 !! c) eqn:Hd1.
      * intros _. apply Hkeys1. rewrite Hd1. eauto.
      * destruct (bool_decide_reflect (c ∈ chars)); [auto|].
        intros [? ?]; discriminate.
    + intros c Hc. split.
      * intros r cs Hcov Hin. apply Hfinal, Hkeep, (Hprim c r cs Hc Hcov Hin).
      * intros Hnc. exists pat. split; [reflexivity|].
        specialize (Hnew c Hc (Hnot c Hnc)).
        destruct (List.find _ (font_sort pat)) as [f|].
        -- destruct Hnew as (r & items & Hcss & Hd1 & Hheap).
           exists r, items. split; [exact Hcss|]. split; [|exact Hheap].
           apply Hfinal, Hd1.
        -- pose proof (size_lt_length d1 chars c Hkeys1 Hc Hnew) as Hlt.
           apply Nat.ltb_lt in Hlt. rewrite Hlt.
           rewrite fill_none_lookup, Hnew, (bool_decide_eq_true_2 _ Hc).
           reflexivity.
  - injection Hrun as <- <-. split; [exact Hkeys0|].
    intros c Hc. split.
    + intros r cs Hcov Hin. apply (Hprim c r cs Hc Hcov Hin).
    + intros Hnc. exfalso. apply Nat.ltb_ge in Hsize0.
      pose proof (size_lt_length d0 chars c Hkeys0 Hc (Hnot c Hnc)). lia.
Qed.

(** The call returns when the first phase can read its caches, the
    style has a family, and every ranked face has scalar attributes. *)
Lemma by_char_returns (sty : Style) (chars : list N) (w : World) (pat : Pattern) :
  css_to_fc_pattern re_escape sty = Ok pat ->
  truefonts w !! sty = None \/ is_Some (primary_coverage w sty) ->
  Forall scalar_face (font_sort pat) ->
  exists d w', get_true_font_by_char font_sort re_escape sty chars w = (Ok d, w').
Proof.
  intros Hpat Hready Hscalar.
  destruct (primary_phase_total sty chars w Hready) as [d0 Hfirst].
  rewrite (by_char_run sty chars w d0 Hfirst), Hpat.
  destruct (size d0 <? length chars)%nat; [|eauto].
  destruct (walk_found_total chars (font_sort pat) Hscalar d0
              {| truefonts := truefonts w;
                 truefontsfc := truefontsfc w;
                 fontcharsets := fontcharsets w;
                 heap := heap w;
                 queries := queries w ++ [MatchRanked pat] |})
    as (d1 & w2 & Hwalk).
  rewrite Hwalk. eauto.
Qed.

End ByChar.

(** The early exit of the whole call: when the cached primary face and
    the ranked faces up to [f] cover every requested character, the
    ranked faces after [f] have no effect on the result or on the state
    of the resolver. *)
Lemma by_char_stops (font_sort : Pattern -> list Found)
    (re_escape : string -> string) (sty : Style) (chars : list N) (w : World)
    (pat : Pattern) (pre : list Found) (f : Found) (post : list Found) :
  NoDup chars ->
  css_to_fc_pattern re_escape sty = Ok pat ->
  font_sort pat = pre ++ f :: post ->
  (forall c, c ∈ chars ->
     primary_covers w sty c \/ exists g, g ∈ pre ++ [f] /\ c ∈ CHARSET g) ->
  get_true_font_by_char font_sort re_escape sty chars w
  = get_true_font_by_char (fun _ => pre ++ [f]) re_escape sty chars w.
Proof.
  intros Hnd Hpat Hsort Hcov.
  destruct (match truefonts w !! sty with
            | Some truefont => primary_hits truefont chars ∅
            | None => ret ∅
            end w) as [[d0|e] w0] eqn:Hfirst.
  - destruct (primary_phase_spec sty chars w d0 w0 Hfirst) as [-> Hd0].
    rewrite !(by_char_run _ re_escape sty chars w d0 Hfirst), Hpat, Hsort.
    destruct (size d0 <? length chars)%nat; [|reflexivity].
    rewrite (walk_found_stops chars f post Hnd pre d0); [reflexivity| |].
    + intros c. rewrite Hd0. destruct (primary_coverage w sty) as [[r cs]|].
      * destruct (bool_decide_reflect (c ∈ chars)); simpl; [auto|].
        intros [? ?]; discriminate.
      * intros [? ?]; discriminate.
    + intros c Hc. destruct (Hcov c Hc) as [(r & cs & Hpc & Hin)|Hg].
      * left. rewrite Hd0, Hpc.
        rewrite (bool_decide_eq_true_2 _ Hc), (bool_decide_eq_true_2 _ Hin).
        simpl. eauto.
      * right. exact Hg.
  - unfold get_true_font_by_char.
    unfold bind at 1. unfold get_world at 1. cbv beta iota.
    unfold bind at 1. rewrite Hfirst.
    unfold bind at 1. unfold get_world at 1. cbv beta iota.
    unfold bind at 1. rewrite Hfirst. reflexivity.
Qed.

Section ByCharClaims.
Variable font_sort : Pattern -> list Found.
Variable re_escape : string -> string.

(** X1. In the mapping returned by [get_true_font_by_char], a requested
    character of the cached primary coverage set has the cached primary
    face; a requested character not covered by the cached primary face
    has the first face of the ranked list whose coverage set contains it
    (a [Style] object holding the CSS descriptor of that face), and it has
    [None] exactly when no ranked face covers it. Over duplicate-free
    characters the walk stops once every character is assigned: the
    ranked faces after that point are not looked at. The call returns
    when the caches read by the first phase are filled and every ranked
    face has scalar attributes. *)
Theorem get_true_font_by_char_first_covering (sty : Style) (chars : list N)
    (w : World) (pat : Pattern) :
  css_to_fc_pattern re_escape sty = Ok pat ->
  (forall d w',
     get_true_font_by_char font_sort re_escape sty chars w = (Ok d, w') ->
     forall c, c ∈ chars ->
       (forall r cs, primary_coverage w sty = Some (r, cs) -> c ∈ cs ->
          d !! c = Some (Some r))
       /\ (~ primary_covers w sty c ->
           match List.find (fun f => bool_decide (c ∈ CHARSET f))
                   (font_sort pat) with
           | Some f =>
               exists r items,
                 css_of_found f = Ok (Some items)
                 /\ d !! c = Some (Some r) /\ heap w' !! r = Some items
           | None => d !! c = Some None
           end)
       /\ (d !! c = Some None <->
           ~ primary_covers w sty c
           /\ forall f, f ∈ font_sort pat -> c ∉ CHARSET f))
  /\ (NoDup chars ->
      forall (pre : list Found) (f : Found) (post : list Found),
      font_sort pat = pre ++ f :: post ->
      (forall c, c ∈ chars ->
         primary_covers w sty c \/ exists g, g ∈ pre ++ [f] /\ c ∈ CHARSET g) ->
      get_true_font_by_char font_sort re_escape sty chars w
      = get_true_font_by_char (fun _ => pre ++ [f]) re_escape sty chars w)
  /\ (truefonts w !! sty = None \/ is_Some (primary_coverage w sty) ->
      Forall scalar_face (font_sort pat) ->
      exists d w',
        get_true_font_by_char font_sort re_escape sty chars w = (Ok d, w')).
Proof.
  intros Hpat. split; [|split].
  - intros d w' Hrun c Hc.
    destruct (by_char_spec font_sort re_escape sty chars w d w' Hrun)
      as [_ Hspec].
    destruct (Hspec c Hc) as [Hprim Hrank].
    assert (Hrank' : ~ primary_covers w sty c ->
              match List.find (fun f => bool_decide (c ∈ CHARSET f))
                      (font_sort pat) with
              | Some f =>
                  exists r items,
                    css_of_found f = Ok (Some items)
                    /\ d !! c = Some (Some r) /\ heap w' !! r = Some items
              | None => d !! c = Some None
              end).
    { intros Hnc. destruct (Hrank Hnc) as (pat' & Hpat' & Hm).
      assert (pat' = pat) by congruence. subst pat'. exact Hm. }
    split; [exact Hprim|]. split; [exact Hrank'|].
    split.
    + intros Hnone.
      assert (Hnc : ~ primary_covers w sty c).
      { intros (r & cs & Hcov & Hin).
        rewrite (Hprim r cs Hcov Hin) in Hnone. discriminate. }
      split; [exact Hnc|]. intros f Hf Hin.
      specialize (Hrank' Hnc).
      destruct (List.find _ (font_sort pat)) as [f'|] eqn:Hfind.
      * destruct Hrank' as (r & items & _ & Hd & _). congruence.
      * apply list_elem_of_In in Hf.
        pose proof (find_none _ _ Hfind f Hf) as Hb. simpl in Hb.
        apply bool_decide_eq_false in Hb. contradiction.
    + intros [Hnc Hno]. specialize (Hrank' Hnc).
      destruct (List.find _ (font_sort pat)) as [f'|] eqn:Hfind; [|exact Hrank'].
      exfalso. apply find_some in Hfind as [Hf Hb].
      apply bool_decide_eq_true in Hb.
      apply (Hno f'); [apply list_elem_of_In; exact Hf|exact Hb].
  - intros Hnd pre f post Hsort Hcov.
    apply (by_char_stops font_sort re_escape sty chars w pat pre f post);
      assumption.
  - intros Hready Hscalar.
    apply (by_char_returns font_sort re_escape sty chars w pat); assumption.
Qed.

(** C9. The mapping returned by [get_true_font_by_char] has exactly the
    requested characters as keys (also when a character is requested
    twice), each bound to a face or to [None]; and the call returns when
    the caches read by the first phase are filled and every ranked face
    has scalar attributes. *)
Theorem get_true_font_by_char_keys (sty : Style) (chars : list N) (w : World) :
  (forall d w',
     get_true_font_by_char font_sort re_escape sty chars w = (Ok d, w') ->
     dom d = list_to_set chars)
  /\ (forall pat,
      css_to_fc_pattern re_escape sty = Ok pat ->
      NoDup chars ->
      truefonts w !! sty = None \/ is_Some (primary_coverage w sty) ->
      Forall scalar_face (font_sort pat) ->
      exists d w',
        get_true_font_by_char font_sort re_escape sty chars w = (Ok d, w')
        /\ dom d = list_to_set chars).
Proof.
  assert (Hkeys : forall d w',
            get_true_font_by_char font_sort re_escape sty chars w = (Ok d, w') ->
            dom d = list_to_set chars).
  { intros d w' Hrun.
    destruct (by_char_spec font_sort re_escape sty chars w d w' Hrun)
      as [Hin Hspec].
    apply set_eq. intros c. rewrite elem_of_dom, elem_of_list_to_set.
    split; [apply Hin|]. intros Hc.
    destruct (Hspec c Hc) as [Hprim Hrank].
    destruct (primary_coverage w sty) as [[r cs]|] eqn:Hcov.
    - destruct (decide (c ∈ cs)) as [Hcs|Hcs].
      + rewrite (Hprim r cs eq_refl Hcs). eauto.
      + destruct Hrank as (pat & _ & Hm).
        { intros (r' & cs' & Heq & Hin'). congruence. }
        destruct (List.find _ (font_sort pat)).
        * destruct Hm as (r' & items & _ & -> & _). eauto.
        * rewrite Hm. eauto.
    - destruct Hrank as (pat & _ & Hm).
      { intros (r' & cs' & Heq & _). congruence. }
      destruct (List.find _ (font_sort pat)).
      + destruct Hm as (r' & items & _ & -> & _). eauto.
      + rewrite Hm. eauto. }
  split; [exact Hkeys|].
  intros pat Hpat _ Hready Hscalar.
  destruct (by_char_returns font_sort re_escape sty chars w pat Hpat Hready Hscalar)
    as (d & w' & Hrun).
  exists d, w'. split; [exact Hrun|apply (Hkeys d w' Hrun)].
Qed.

End ByCharClaims.

Lemma ex_primary_coverage :
  primary_coverage Ex.world1 Ex.sty = Some (0%nat, {[ 65%N; 86%N ]}).
Proof. vm_compute. reflexivity. Qed.

Lemma ex_scalar_faces : Forall scalar_face (Ex.ranked_scalar Ex.pat).
Proof.
  repeat constructor; eexists; vm_compute; reflexivity.
Qed.

(** With [A] covered by the cached primary face, U+23A3 covered by the
    second ranked face only, and U+0007 covered by no face. *)
Lemma get_true_font_by_char_first_covering_witness :
  css_to_fc_pattern Ex.re_escape Ex.sty = Ok Ex.pat
  /\ (exists d w',
        get_true_font_by_char Ex.ranked_scalar Ex.re_escape Ex.sty
          [65%N; 9123%N; 7%N] Ex.world1 = (Ok d, w')
        /\ d !! 65%N = Some (Some 0%nat)
        /\ (exists r items,
              css_of_found Ex.symbols = Ok (Some items)
              /\ d !! 9123%N = Some (Some r) /\ heap w' !! r = Some items)
        /\ d !! 7%N = Some None)
  /\ get_true_font_by_char Ex.ranked Ex.re_escape Ex.sty [65%N; 9123%N] Ex.world1
     = get_true_font_by_char (fun _ => [Ex.arial] ++ [Ex.symbols]) Ex.re_escape
         Ex.sty [65%N; 9123%N] Ex.world1.
Proof.
  assert (Hpat : css_to_fc_pattern Ex.re_escape Ex.sty = Ok Ex.pat)
    by (vm_compute; reflexivity).
  assert (Hnot : forall c, c <> 65%N -> c <> 86%N ->
            ~ primary_covers Ex.world1 Ex.sty c).
  { intros c H1 H2 (r & cs & Hcov & Hin). rewrite ex_primary_coverage in Hcov.
    injection Hcov as <- <-. set_solver. }
  split; [exact Hpat|]. split.
  - destruct (get_true_font_by_char_first_covering Ex.ranked_scalar Ex.re_escape
                Ex.sty [65%N; 9123%N; 7%N] Ex.world1 Ex.pat Hpat)
      as (Hassign & _ & Hreturns).
    destruct Hreturns as (d & w' & Hrun).
    { right. rewrite ex_primary_coverage. eauto. }
    { exact ex_scalar_faces. }
    exists d, w'. split; [exact Hrun|]. split; [|split].
    + destruct (Hassign d w' Hrun 65%N) as (Hprim & _); [set_solver|].
      apply (Hprim 0%nat {[ 65%N; 86%N ]} ex_primary_coverage). set_solver.
    + destruct (Hassign d w' Hrun 9123%N) as (_ & Hrank & _); [set_solver|].
      assert (Hfind : List.find (fun f => bool_decide (9123%N ∈ CHARSET f))
                        (Ex.ranked_scalar Ex.pat) = Some Ex.symbols)
        by (vm_compute; reflexivity).
      rewrite Hfind in Hrank. apply Hrank, Hnot; discriminate.
    + destruct (Hassign d w' Hrun 7%N) as (_ & Hrank & _); [set_solver|].
      assert (Hfind : List.find (fun f => bool_decide (7%N ∈ CHARSET f))
                        (Ex.ranked_scalar Ex.pat) = None)
        by (vm_compute; reflexivity).
      rewrite Hfind in Hrank. apply Hrank, Hnot; discriminate.
  - destruct (get_true_font_by_char_first_covering Ex.ranked Ex.re_escape
                Ex.sty [65%N; 9123%N] Ex.world1 Ex.pat Hpat)
      as (_ & Hstops & _).
    apply (Hstops ltac:(compute_done) [Ex.arial] Ex.symbols [Ex.variable] eq_refl).
    intros c Hc. right.
    apply elem_of_cons in Hc as [->|Hc].
    + exists Ex.arial. split; [set_solver|]. simpl. set_solver.
    + apply list_elem_of_singleton in Hc as ->.
      exists Ex.symbols. split; [set_solver|]. simpl. set_solver.
Defined.

(** The mapping for three requested characters. *)
Lemma get_true_font_by_char_keys_witness :
  exists d w',
    get_true_font_by_char Ex.ranked_scalar Ex.re_escape Ex.sty
      [65%N; 9123%N; 7%N] Ex.world1 = (Ok d, w')
    /\ dom d = list_to_set [65%N; 9123%N; 7%N].
Proof.
  apply (proj2 (get_true_font_by_char_keys Ex.ranked_scalar Ex.re_escape Ex.sty
                  [65%N; 9123%N; 7%N] Ex.world1) Ex.pat).
  - vm_compute. reflexivity.
  - compute_done.
  - right. rewrite ex_primary_coverage. eauto.
  - exact ex_scalar_faces.
Defined.

(** C1 (the code departs from the claim). The character U+0007 is
    covered by no ranked face and not by the cached primary face, so the
    claim has it mapped to [None]; the walk reaches the ranked face whose
    weight is list-valued, [fcfound_to_css] gives [None] for it, and
    [truefont.items()] raises [AttributeError] before the fill with
    [None]. The same happens when such a face comes before the first face
    that covers a character. *)
Theorem get_true_font_by_char_ambiguous_raises :
  (forall f, f ∈ Ex.ranked Ex.pat -> 7%N ∉ CHARSET f)
  /\ ~ primary_covers Ex.world1 Ex.sty 7%N
  /\ css_of_found Ex.variable = Ok None
  /\ fst (get_true_font_by_char Ex.ranked Ex.re_escape Ex.sty
            [65%N; 7%N] Ex.world1) = Raise AttributeError
  /\ List.find (fun f => bool_decide (9123%N ∈ CHARSET f))
       (Ex.ranked_late Ex.pat) = Some Ex.symbols
  /\ fst (get_true_font_by_char Ex.ranked_late Ex.re_escape Ex.sty
            [9123%N] Ex.world1) = Raise AttributeError.
Proof.
  split.
  { intros f Hin. unfold Ex.ranked in Hin.
    repeat (apply elem_of_cons in Hin as [->|Hin]); simpl; [set_solver..|].
    apply elem_of_nil in Hin. contradiction. }
  split.
  { intros (r & cs & Hcov & Hin). rewrite ex_primary_coverage in Hcov.
    injection Hcov as <- <-. set_solver. }
  vm_compute. repeat split; reflexivity.
Qed.

(** ** The metrics extractor: [get_char_advances] *)

Import FontTools_FontInstance.

(** C7. On a face without a usable character map, [get_char_advances]
    returns [None] for the advances, the pair adjustments and the ink
    boxes, whatever characters and pairs are requested, and leaves the
    handle as it was. *)
Theorem get_char_advances_no_cmap (self : Instance) (chars : list N)
    (pchars : Py.dict N (list N)) :
  getBestCmap (font self) = None ->
  get_char_advances self chars pchars = (Ok (None, None, None), self).
Proof.
  intros Hcmap. unfold get_char_advances. rewrite Hcmap. reflexivity.
Qed.

(** The handle of the symbol face, built by the constructor. *)
Lemma get_char_advances_no_cmap_witness :
  exists self,
    init Ex.open_file Ex.instantiateVariableFont Ex.symbols = Ok self
    /\ getBestCmap (font self) = None
    /\ get_char_advances self [9123%N; 65%N] [(65%N, [9123%N])]
       = (Ok (None, None, None), self).
Proof.
  eexists. split; [vm_compute; reflexivity|]. split; [reflexivity|].
  apply get_char_advances_no_cmap. reflexivity.
Defined.

(** One character of the loop leaves the entries of the other
    characters alone. *)
Lemma char_step_other (font : TTFont) (cmap : gmap N string) acc acc' (c k : N) :
  char_step font cmap acc c = Ok acc' ->
  k <> c ->
  fst acc' !! k = fst acc !! k /\ snd acc' !! k = snd acc !! k.
Proof.
  unfold char_step. intros Hstep Hne.
  destruct (cmap !! c) as [g|].
  - destruct (hmtx_metrics font !! g) as [[aw lsb]|].
    + destruct (Py.truediv aw (unitsPerEm font)) as [q|e]; [|discriminate].
      simpl in Hstep. injection Hstep as <-. simpl.
      rewrite !lookup_insert_ne by congruence. split; reflexivity.
    + simpl in Hstep. injection Hstep as <-. simpl.
      rewrite lookup_insert_ne by congruence. split; reflexivity.
  - injection Hstep as <-. simpl.
    rewrite lookup_insert_ne by congruence. split; reflexivity.
Qed.

(** A character without a glyph: an advance entry [None], and the ink
    boxes untouched. *)
Lemma char_step_unmapped (font : TTFont) (cmap : gmap N string) acc acc' (c : N) :
  char_step font cmap acc c = Ok acc' ->
  cmap !! c = None ->
  fst acc' !! c = Some None /\ snd acc' !! c = snd acc !! c.
Proof.
  unfold char_step. intros Hstep Hc. rewrite Hc in Hstep.
  injection Hstep as <-. simpl. rewrite lookup_insert_eq. split; reflexivity.
Qed.

(** A character whose glyph has no horizontal metrics: the advances
    untouched, and an ink box. *)
Lemma char_step_no_metrics (font : TTFont) (cmap : gmap N string) acc acc'
    (c : N) (g : string) :
  char_step font cmap acc c = Ok acc' ->
  cmap !! c = Some g ->
  hmtx_metrics font !! g = None ->
  fst acc' !! c = fst acc !! c /\ snd acc' !! c = Some (ink_box font g).
Proof.
  unfold char_step. intros Hstep Hc Hg. rewrite Hc, Hg in Hstep.
  simpl in Hstep. injection Hstep as <-. simpl.
  rewrite lookup_insert_eq. split; reflexivity.
Qed.

Lemma char_loop_unmapped (font : TTFont) (cmap : gmap N string) (c : N)
    (chars : list N) :
  cmap !! c = None ->
  forall acc acc',
  char_loop font cmap chars acc = Ok acc' ->
  snd acc' !! c = snd acc !! c
  /\ (c ∈ chars -> fst acc' !! c = Some None)
  /\ (fst acc !! c = Some None -> fst acc' !! c = Some None).
Proof.
  intros Hc. induction chars as [|k chars IH]; intros acc acc' Hloop.
  - simpl in Hloop. injection Hloop as <-.
    split; [reflexivity|]. split; [|auto].
    intros Hin. apply elem_of_nil in Hin. contradiction.
  - simpl in Hloop.
    destruct (char_step font cmap acc k) as [acc1|e] eqn:Hstep; [|discriminate].
    simpl in Hloop. destruct (IH acc1 acc' Hloop) as (Hbb & Hin & Hkeep).
    destruct (decide (k = c)) as [->|Hne].
    + destruct (char_step_unmapped font cmap acc acc1 c Hstep Hc) as [Ha Hb].
      split; [congruence|]. split; intros _; apply Hkeep, Ha.
    + destruct (char_step_other font cmap acc acc1 k c Hstep) as [Ha Hb];
        [congruence|].
      split; [congruence|]. split.
      * intros Hel. apply elem_of_cons in Hel as [->|Hel]; [congruence|auto].
      * intros Hn. apply Hkeep. congruence.
Qed.

Lemma char_loop_no_metrics (font : TTFont) (cmap : gmap N string) (c : N)
    (g : string) (chars : list N) :
  cmap !! c = Some g ->
  hmtx_metrics font !! g = None ->
  forall acc acc',
  char_loop font cmap chars acc = Ok acc' ->
  fst acc' !! c = fst acc !! c.
Proof.
  intros Hc Hg. induction chars as [|k chars IH]; intros acc acc' Hloop.
  - simpl in Hloop. injection Hloop as <-. reflexivity.
  - simpl in Hloop.
    destruct (char_step font cmap acc k) as [acc1|e] eqn:Hstep; [|discriminate].
    simpl in Hloop. rewrite (IH acc1 acc' Hloop).
    destruct (decide (k = c)) as [->|Hne].
    + apply (char_step_no_metrics font cmap acc acc1 c g Hstep Hc Hg).
    + apply (char_step_other font cmap acc acc1 k c Hstep). congruence.
Qed.

(** The outputs of a call that returned on a face with a character map. *)
Lemma get_char_advances_inv (self self' : Instance) (chars : list N)
    (pchars : Py.dict N (list N)) (cmap : gmap N string) out :
  getBestCmap (font self) = Some cmap ->
  get_char_advances self chars pchars = (Ok out, self') ->
  exists advs bbs table dadvs,
    char_loop (font self) cmap chars (∅, ∅) = Ok (advs, bbs)
    /\ ensure_ligatures self = (Ok table, self')
    /\ pair_loop (font self) cmap table pchars ∅ = Ok dadvs
    /\ out = (Some advs, Some dadvs, Some bbs).
Proof.
  intros Hcmap. unfold get_char_advances. rewrite Hcmap.
  destruct (char_loop (font self) cmap chars (∅, ∅)) as [[advs bbs]|e] eqn:Hc;
    [|discriminate].
  destruct (ensure_ligatures self) as [[table|e] self1] eqn:Hl; [|discriminate].
  destruct (pair_loop (font self) cmap table pchars ∅) as [dadvs|e] eqn:Hp;
    [|discriminate].
  intros H. injection H as <- <-. exists advs, bbs, table, dadvs.
  split; [reflexivity|]. split; [reflexivity|]. split; [exact Hp|reflexivity].
Qed.

Lemma truediv_total (a b : Z) : b <> 0 -> exists q, Py.truediv a b = Ok q.
Proof.
  intros Hb. unfold Py.truediv. rewrite decide_False by exact Hb. eauto.
Qed.

(** With a non-zero em size the loop over the characters returns. *)
Lemma char_loop_total (font : TTFont) (cmap : gmap N string) (chars : list N) :
  unitsPerEm font <> 0 ->
  forall acc, exists acc', char_loop font cmap chars acc = Ok acc'.
Proof.
  intros Hupm. induction chars as [|c chars IH]; intros acc; simpl; [eauto|].
  unfold char_step. destruct (cmap !! c) as [g|]; simpl; [|apply IH].
  destruct (hmtx_metrics font !! g) as [[aw lsb]|]; simpl; [|apply IH].
  destruct (truediv_total aw (unitsPerEm font) Hupm) as [q ->]. simpl. apply IH.
Qed.

(** With a non-zero em size, a pair whose ligature glyphs have metrics
    gets an adjustment. *)
Lemma pair_adjust_total (font : TTFont) (table : gmap (list string) string)
    (glyph1 glyph2 : option string) :
  unitsPerEm font <> 0 ->
  ligature_measurable font table glyph1 glyph2 ->
  exists q, pair_adjust font table glyph1 glyph2 = Ok q.
Proof.
  intros Hupm Hlig. unfold pair_adjust.
  destruct (lig_get table glyph1 glyph2) as [lg|] eqn:Hget.
  - destruct (Hlig lg Hget) as (awlig & aw1 & aw2 & -> & -> & ->). simpl.
    apply truediv_total, Hupm.
  - destruct (kernTables font) as [tables|]; simpl; apply truediv_total, Hupm.
Qed.

Lemma prev_loop_total (font : TTFont) (cmap : gmap N string)
    (table : gmap (list string) string) (c : N) (pcs : list N) :
  unitsPerEm font <> 0 ->
  (forall pc, pc ∈ pcs -> ligature_measurable font table (cmap !! pc) (cmap !! c)) ->
  forall dadvs, exists dadvs', prev_loop font cmap table c pcs dadvs = Ok dadvs'.
Proof.
  intros Hupm. induction pcs as [|pc pcs IH]; intros Hm dadvs; simpl; [eauto|].
  destruct (pair_adjust_total font table (cmap !! pc) (cmap !! c) Hupm) as [q ->].
  - apply Hm. left.
  - simpl. apply IH. intros pc' Hin. apply Hm. right. exact Hin.
Qed.

Lemma pair_loop_total (font : TTFont) (cmap : gmap N string)
    (table : gmap (list string) string) (pchars : Py.dict N (list N)) :
  unitsPerEm font <> 0 ->
  pairs_measurable font cmap table pchars ->
  forall dadvs, exists dadvs', pair_loop font cmap table pchars dadvs = Ok dadvs'.
Proof.
  intros Hupm. induction pchars as [|[c pcs] pchars IH]; intros Hm dadvs; simpl;
    [eauto|].
  destruct (prev_loop_total font cmap table c pcs Hupm) with (dadvs := dadvs)
    as [d1 ->].
  - intros pc Hin. apply (Hm c pcs pc); [left|exact Hin].
  - simpl. apply IH. intros c' pcs' pc Hin Hpc.
    apply (Hm c' pcs' pc); [right; exact Hin|exact Hpc].
Qed.

(** The call returns on a face with a character map and a non-zero em
    size, once the ligature table is available and the ligatures of the
    requested pairs have metrics. *)
Lemma get_char_advances_returns (self self' : Instance) (chars : list N)
    (pchars : Py.dict N (list N)) (cmap : gmap N string)
    (table : gmap (list string) string) :
  getBestCmap (font self) = Some cmap ->
  unitsPerEm (font self) <> 0 ->
  ensure_ligatures self = (Ok table, self') ->
  pairs_measurable (font self) cmap table pchars ->
  exists advs dadvs bbs,
    get_char_advances self chars pchars
    = (Ok (Some advs, Some dadvs, Some bbs), self').
Proof.
  intros Hcmap Hupm Hlig Hm. unfold get_char_advances. rewrite Hcmap.
  destruct (char_loop_total (font self) cmap chars Hupm (∅, ∅))
    as [[advs bbs] ->].
  rewrite Hlig.
  destruct (pair_loop_total (font self) cmap table pchars Hupm Hm ∅) as [dadvs ->].
  eauto.
Qed.

(** C10. On a face with a character map, a requested character whose
    glyph has no entry in the horizontal-metrics table gets no key in the
    advances (the key is missing, not bound to [None]); a requested
    character without a glyph gets the advance [None] and no key in the
    ink boxes. The call returns when the em size is not zero, the
    ligature table is available and the ligatures of the requested pairs
    have metrics. *)
Theorem get_char_advances_missing_entries (self : Instance) (chars : list N)
    (pchars : Py.dict N (list N)) (cmap : gmap N string) :
  getBestCmap (font self) = Some cmap ->
  (forall out self',
     get_char_advances self chars pchars = (Ok out, self') ->
     exists advs dadvs bbs,
       out = (Some advs, Some dadvs, Some bbs)
       /\ forall c, c ∈ chars ->
            (forall g, cmap !! c = Some g ->
               hmtx_metrics (font self) !! g = None -> advs !! c = None)
            /\ (cmap !! c = None -> advs !! c = Some None /\ bbs !! c = None))
  /\ (forall table self',
        unitsPerEm (font self) <> 0 ->
        ensure_ligatures self = (Ok table, self') ->
        pairs_measurable (font self) cmap table pchars ->
        exists out, get_char_advances self chars pchars = (Ok out, self')).
Proof.
  intros Hcmap. split.
  - intros out self' Hrun.
    destruct (get_char_advances_inv self self' chars pchars cmap out Hcmap Hrun)
      as (advs & bbs & table & dadvs & Hloop & _ & _ & ->).
    exists advs, dadvs, bbs. split; [reflexivity|].
    intros c Hc. split.
    + intros g Hg Hm.
      rewrite (char_loop_no_metrics (font self) cmap c g chars Hg Hm
                 (∅, ∅) (advs, bbs) Hloop : advs !! c = _).
      apply lookup_empty.
    + intros Hnone.
      destruct (char_loop_unmapped (font self) cmap c chars Hnone
                  (∅, ∅) (advs, bbs) Hloop) as (Hbb & Hadv & _).
      split; [apply Hadv, Hc|]. simpl in Hbb. rewrite Hbb. apply lookup_empty.
  - intros table self' Hupm Hlig Hm.
    destruct (get_char_advances_returns self self' chars pchars cmap table
                Hcmap Hupm Hlig Hm) as (advs & dadvs & bbs & Hrun).
    eauto.
Qed.

(** On the bold face: U+20AC has a glyph without metrics, U+03B1 has no
    glyph. *)
Lemma get_char_advances_missing_entries_witness :
  exists self advs dadvs bbs self',
    init Ex.open_file Ex.instantiateVariableFont Ex.arial = Ok self
    /\ get_char_advances self [65%N; 8364%N; 945%N] [(86%N, [65%N])]
       = (Ok (Some advs, Some dadvs, Some bbs), self')
    /\ advs !! 8364%N = None
    /\ advs !! 945%N = Some None
    /\ bbs !! 945%N = None.
Proof.
  destruct (init Ex.open_file Ex.instantiateVariableFont Ex.arial)
    as [self|e] eqn:Hinit; [|vm_compute in Hinit; discriminate].
  assert (Hfont : font self = Ex.arial_font).
  { vm_compute in Hinit. injection Hinit as <-. vm_compute. reflexivity. }
  assert (Hlig : ligatures self = None).
  { vm_compute in Hinit. injection Hinit as <-. reflexivity. }
  destruct (getBestCmap (font self)) as [cmap|] eqn:Hcmap;
    [|rewrite Hfont in Hcmap; discriminate].
  assert (Hcmap' : getBestCmap Ex.arial_font = Some cmap)
    by (rewrite <- Hfont; exact Hcmap).
  injection Hcmap' as Hcm.
  destruct (get_char_advances_missing_entries self [65%N; 8364%N; 945%N]
              [(86%N, [65%N])] cmap Hcmap) as [Hentries Hreturns].
  destruct (ensure_ligatures self) as [[table|e] self'] eqn:Hens.
  2: { unfold ensure_ligatures in Hens. rewrite Hlig, Hfont in Hens.
       vm_compute in Hens. discriminate. }
  assert (Htable : table !! ["A"; "V"]%string = None).
  { unfold ensure_ligatures in Hens. rewrite Hlig, Hfont in Hens.
    simpl in Hens. injection Hens as <- _. vm_compute. reflexivity. }
  destruct (Hreturns table self') as [out Hrun].
  - rewrite Hfont. discriminate.
  - reflexivity.
  - intros c pcs pc Hin Hpc lg Hget.
    apply list_elem_of_singleton in Hin. injection Hin as -> ->.
    apply list_elem_of_singleton in Hpc as ->.
    rewrite <- Hcm in Hget. vm_compute in Hget.
    change (table !! ["A"; "V"]%string = Some lg) in Hget. congruence.
  - destruct (Hentries out self' Hrun) as (advs & dadvs & bbs & -> & Hc).
    exists self, advs, dadvs, bbs, self'.
    split; [reflexivity|]. split; [exact Hrun|].
    destruct (Hc 8364%N) as [Heuro _]; [set_solver|].
    destruct (Hc 945%N) as [_ Halpha]; [set_solver|].
    split; [|apply Halpha; rewrite <- Hcm; vm_compute; reflexivity].
    apply (Heuro "Euro"%string).
    + rewrite <- Hcm. vm_compute. reflexivity.
    + rewrite Hfont. vm_compute. reflexivity.
Defined.

(** The scan of the kerning subtables returns the value of the first
    subtable that defines the pair. *)
Lemma kern_scan_first (tables : list (gmap (string * string) Z))
    (glyph1 glyph2 : option string) :
  match kern_scan tables glyph1 glyph2 with
  | Some v =>
      exists i t,
        tables !! i = Some t /\ kern_get t glyph1 glyph2 = Some v
        /\ forall j t', (j < i)%nat -> tables !! j = Some t' ->
             kern_get t' glyph1 glyph2 = None
  | None => forall t, t ∈ tables -> kern_get t glyph1 glyph2 = None
  end.
Proof.
  induction tables as [|t tables IH]; simpl.
  - intros t Hin. apply elem_of_nil in Hin. contradiction.
  - destruct (kern_get t glyph1 glyph2) as [v|] eqn:Ht.
    + exists 0%nat, t. split; [reflexivity|]. split; [exact Ht|]. intros; lia.
    + destruct (kern_scan tables glyph1 glyph2) as [v|].
      * destruct IH as (i & t0 & Hi & Hv & Hbefore).
        exists (S i), t0. split; [exact Hi|]. split; [exact Hv|].
        intros [|j] t' Hj Hl; simpl in Hl.
        -- injection Hl as <-. exact Ht.
        -- apply (Hbefore j); [lia|exact Hl].
      * intros t' Hin. apply elem_of_cons in Hin as [->|Hin]; [exact Ht|auto].
Qed.

Section PairLoop.
Variable font : TTFont.
Variable cmap : gmap N string.
Variable table : gmap (list string) string.

Lemma prev_loop_spec (c : N) (pcs : list N) :
  forall dadvs dadvs',
  prev_loop font cmap table c pcs dadvs = Ok dadvs' ->
  adjustments_computed font cmap table dadvs ->
  adjustments_computed font cmap table dadvs'
  /\ (forall k, is_Some (dadvs !! k) -> is_Some (dadvs' !! k))
  /\ (forall pc, pc ∈ pcs -> is_Some (dadvs' !! (pc, c))).
Proof.
  induction pcs as [|pc pcs IH]; intros dadvs dadvs' Hloop Hcomp.
  - simpl in Hloop. injection Hloop as <-. split; [exact Hcomp|].
    split; [auto|]. intros pc Hin. apply elem_of_nil in Hin. contradiction.
  - simpl in Hloop.
    destruct (pair_adjust font table (cmap !! pc) (cmap !! c)) as [v|e] eqn:Hv;
      [|discriminate].
    simpl in Hloop.
    destruct (IH (<[(pc, c) := v]> dadvs) dadvs' Hloop) as (Hc' & Hmono & Hall).
    { intros pc0 c0 q. destruct (decide ((pc, c) = (pc0, c0))) as [Heq|Hne].
      - injection Heq as <- <-. rewrite lookup_insert_eq. congruence.
      - rewrite lookup_insert_ne by exact Hne. apply Hcomp. }
    split; [exact Hc'|]. split.
    + intros k Hk. apply Hmono.
      destruct (decide ((pc, c) = k)) as [<-|Hne].
      * rewrite lookup_insert_eq. eauto.
      * rewrite lookup_insert_ne by exact Hne. exact Hk.
    + intros pc0 Hin. apply elem_of_cons in Hin as [->|Hin]; [|auto].
      apply Hmono. rewrite lookup_insert_eq. eauto.
Qed.

Lemma pair_loop_spec (pchars : Py.dict N (list N)) :
  forall dadvs dadvs',
  pair_loop font cmap table pchars dadvs = Ok dadvs' ->
  adjustments_computed font cmap table dadvs ->
  adjustments_computed font cmap table dadvs'
  /\ (forall k, is_Some (dadvs !! k) -> is_Some (dadvs' !! k))
  /\ (forall c pcs pc, (c, pcs) ∈ pchars -> pc ∈ pcs ->
        is_Some (dadvs' !! (pc, c))).
Proof.
  induction pchars as [|[c pcs] pchars IH]; intros dadvs dadvs' Hloop Hcomp.
  - simpl in Hloop. injection Hloop as <-. split; [exact Hcomp|].
    split; [auto|]. intros c pcs pc Hin. apply elem_of_nil in Hin. contradiction.
  - simpl in Hloop.
    destruct (prev_loop font cmap table c pcs dadvs) as [d1|e] eqn:Hprev;
      [|discriminate].
    simpl in Hloop.
    destruct (prev_loop_spec c pcs dadvs d1 Hprev Hcomp) as (Hc1 & Hm1 & Hall1).
    destruct (IH d1 dadvs' Hloop Hc1) as (Hc' & Hm & Hall).
    split; [exact Hc'|]. split; [intros k Hk; apply Hm, Hm1, Hk|].
    intros c0 pcs0 pc Hin Hpc. apply elem_of_cons in Hin as [Heq|Hin].
    + injection Heq as -> ->. apply Hm, Hall1, Hpc.
    + apply (Hall c0 pcs0 pc Hin Hpc).
Qed.

(** After the loop over the pairs, every requested pair has the
    adjustment computed for it. *)
Lemma pair_loop_entries (pchars : Py.dict N (list N)) (dadvs : gmap (N * N) float) :
  pair_loop font cmap table pchars ∅ = Ok dadvs ->
  forall c pcs pc, (c, pcs) ∈ pchars -> pc ∈ pcs ->
  exists q,
    dadvs !! (pc, c) = Some q
    /\ pair_adjust font table (cmap !! pc) (cmap !! c) = Ok q.
Proof.
  intros Hloop c pcs pc Hin Hpc.
  destruct (pair_loop_spec pchars ∅ dadvs Hloop) as (Hcomp & _ & Hall).
  { intros pc0 c0 q Hq. rewrite lookup_empty in Hq. discriminate. }
  destruct (Hall c pcs pc Hin Hpc) as [q Hq].
  exists q. split; [exact Hq|]. apply Hcomp, Hq.
Qed.

End PairLoop.

(** C2. For every requested pair of a preceding character and a
    character: when the ligature table of the face has an entry for the
    pair of their glyphs, the adjustment is the advance of the ligature
    glyph minus the advances of the two glyphs, over the em size, whatever
    the kerning subtables hold for the pair; otherwise it is the value of
    the first kerning subtable that defines the pair, over the em size;
    otherwise 0. The call returns when the em size is not zero and the
    glyphs of the ligatures found have metrics. *)
Theorem get_char_advances_pair_adjustment (self : Instance) (chars : list N)
    (pchars : Py.dict N (list N)) (cmap : gmap N string)
    (table : gmap (list string) string) (self1 : Instance) :
  getBestCmap (font self) = Some cmap ->
  ensure_ligatures self = (Ok table, self1) ->
  (forall out self',
     get_char_advances self chars pchars = (Ok out, self') ->
     exists advs dadvs bbs,
       out = (Some advs, Some dadvs, Some bbs)
       /\ forall c pcs pc, (c, pcs) ∈ pchars -> pc ∈ pcs ->
            match lig_get table (cmap !! pc) (cmap !! c) with
            | Some ligglyph =>
                exists awlig aw1 aw2 q,
                  advance_of (font self) (Some ligglyph) = Ok awlig
                  /\ advance_of (font self) (cmap !! pc) = Ok aw1
                  /\ advance_of (font self) (cmap !! c) = Ok aw2
                  /\ Py.truediv (awlig - aw1 - aw2) (unitsPerEm (font self)) = Ok q
                  /\ dadvs !! (pc, c) = Some q
            | None =>
                exists v q,
                  Py.truediv v (unitsPerEm (font self)) = Ok q
                  /\ dadvs !! (pc, c) = Some q
                  /\ match kernTables (font self) with
                     | Some tables =>
                         (exists i t,
                            tables !! i = Some t
                            /\ kern_get t (cmap !! pc) (cmap !! c) = Some v
                            /\ forall j t', (j < i)%nat -> tables !! j = Some t' ->
                                 kern_get t' (cmap !! pc) (cmap !! c) = None)
                         \/ (v = 0
                             /\ forall t, t ∈ tables ->
                                  kern_get t (cmap !! pc) (cmap !! c) = None)
                     | None => v = 0
                     end
            end)
  /\ (unitsPerEm (font self) <> 0 ->
      pairs_measurable (font self) cmap table pchars ->
      exists out, get_char_advances self chars pchars = (Ok out, self1)).
Proof.
  intros Hcmap Hens. split.
  - intros out self' Hrun.
    destruct (get_char_advances_inv self self' chars pchars cmap out Hcmap Hrun)
      as (advs & bbs & table' & dadvs & _ & Hens' & Hloop & ->).
    assert (table' = table) by congruence. subst table'.
    exists advs, dadvs, bbs. split; [reflexivity|].
    intros c pcs pc Hin Hpc.
    destruct (pair_loop_entries (font self) cmap table pchars dadvs Hloop
                c pcs pc Hin Hpc) as (q & Hq & Hadj).
    unfold pair_adjust in Hadj.
    destruct (lig_get table (cmap !! pc) (cmap !! c)) as [lg|].
    + destruct (advance_of (font self) (Some lg)) as [awlig|e]; [|discriminate].
      destruct (advance_of (font self) (cmap !! pc)) as [aw1|e]; [|discriminate].
      destruct (advance_of (font self) (cmap !! c)) as [aw2|e]; [|discriminate].
      simpl in Hadj. exists awlig, aw1, aw2, q. repeat split; assumption.
    + destruct (kernTables (font self)) as [tables|]; simpl in Hadj.
      * pose proof (kern_scan_first tables (cmap !! pc) (cmap !! c)) as Hscan.
        destruct (kern_scan tables (cmap !! pc) (cmap !! c)) as [v|].
        -- exists v, q. split; [exact Hadj|]. split; [exact Hq|]. left. exact Hscan.
        -- exists 0, q. split; [exact Hadj|]. split; [exact Hq|]. right.
           split; [reflexivity|exact Hscan].
      * exists 0, q. split; [exact Hadj|]. split; [exact Hq|reflexivity].
  - intros Hupm Hm.
    destruct (get_char_advances_returns self self1 chars pchars cmap table
                Hcmap Hupm Hens Hm) as (advs & dadvs & bbs & Hrun).
    eauto.
Qed.

(** On the bold face the pair [f], [i] has a ligature and a kerning
    entry in two subtables: the adjustment is the one of the ligature.
    The pair [A], [V] has no ligature: the adjustment is the value of the
    first subtable that defines it. *)
Lemma get_char_advances_pair_adjustment_witness :
  exists self advs dadvs bbs self' q k,
    init Ex.open_file Ex.instantiateVariableFont Ex.arial = Ok self
    /\ get_char_advances self [] [(105%N, [102%N]); (86%N, [65%N])]
       = (Ok (Some advs, Some dadvs, Some bbs), self')
    /\ Py.truediv (1139 - 682 - 569) 2048 = Ok q
    /\ dadvs !! (102%N, 105%N) = Some q
    /\ Py.truediv (-152) 2048 = Ok k
    /\ dadvs !! (65%N, 86%N) = Some k.
Proof.
  destruct (init Ex.open_file Ex.instantiateVariableFont Ex.arial)
    as [self|e] eqn:Hinit; [|vm_compute in Hinit; discriminate].
  assert (Hfont : font self = Ex.arial_font).
  { vm_compute in Hinit. injection Hinit as <-. vm_compute. reflexivity. }
  assert (Hlig : ligatures self = None).
  { vm_compute in Hinit. injection Hinit as <-. reflexivity. }
  destruct (getBestCmap (font self)) as [cmap|] eqn:Hcmap;
    [|rewrite Hfont in Hcmap; discriminate].
  assert (Hcmap' : getBestCmap Ex.arial_font = Some cmap)
    by (rewrite <- Hfont; exact Hcmap).
  injection Hcmap' as Hcm.
  destruct (ensure_ligatures self) as [[table|e] self1] eqn:Hens.
  2: { unfold ensure_ligatures in Hens. rewrite Hlig, Hfont in Hens.
       vm_compute in Hens. discriminate. }
  destruct (get_char_advances_pair_adjustment self []
              [(105%N, [102%N]); (86%N, [65%N])] cmap table self1 Hcmap Hens)
    as [Hadj Hret].
  assert (Hfi : lig_get table (cmap !! 102%N) (cmap !! 105%N) = Some "fi"%string).
  { unfold ensure_ligatures in Hens. rewrite Hlig, Hfont in Hens.
    simpl in Hens. injection Hens as <- _. rewrite <- Hcm.
    vm_compute. reflexivity. }
  assert (Hav : lig_get table (cmap !! 65%N) (cmap !! 86%N) = None).
  { unfold ensure_ligatures in Hens. rewrite Hlig, Hfont in Hens.
    simpl in Hens. injection Hens as <- _. rewrite <- Hcm.
    vm_compute. reflexivity. }
  destruct Hret as [out Hrun].
  { rewrite Hfont. discriminate. }
  { intros c pcs pc Hin Hpc lg Hget.
    apply elem_of_cons in Hin as [Heq|Hin].
    - injection Heq as -> ->. apply list_elem_of_singleton in Hpc as ->.
      rewrite Hfi in Hget. injection Hget as <-.
      rewrite Hfont, <- Hcm. do 3 eexists. vm_compute.
      repeat split; reflexivity.
    - apply list_elem_of_singleton in Hin. injection Hin as -> ->.
      apply list_elem_of_singleton in Hpc as ->. congruence. }
  destruct (Hadj out self1 Hrun) as (advs & dadvs & bbs & -> & Hpairs).
  pose proof (Hpairs 105%N [102%N] 102%N) as H1. rewrite Hfi in H1.
  destruct H1 as (awlig & aw1 & aw2 & q & Hl & Ha1 & Ha2 & Hq & Hd);
    [set_solver|set_solver|].
  rewrite Hfont in Hl, Ha1, Ha2, Hq. rewrite <- Hcm in Ha1, Ha2.
  vm_compute in Hl, Ha1, Ha2. injection Hl as <-. injection Ha1 as <-.
  injection Ha2 as <-.
  pose proof (Hpairs 86%N [65%N] 65%N) as H2. rewrite Hav in H2.
  destruct H2 as (v & k & Hk & Hdk & Hkern); [set_solver|set_solver|].
  rewrite Hfont in Hk, Hkern. simpl in Hkern.
  assert (Hv : v = -152).
  { destruct Hkern as [(i & t & Hi & Ht & Hbefore)|[_ Hnone]].
    - rewrite <- Hcm in Ht, Hbefore.
      destruct i as [|[|[|i]]]; simpl in Hi; try discriminate.
      + injection Hi as <-. vm_compute in Ht. discriminate.
      + injection Hi as <-. vm_compute in Ht. congruence.
      + specialize (Hbefore 1%nat _ ltac:(lia) eq_refl).
        vm_compute in Hbefore. discriminate.
    - rewrite <- Hcm in Hnone.
      specialize (Hnone _ ltac:(right; left)). vm_compute in Hnone.
      discriminate. }
  subst v.
  exists self, advs, dadvs, bbs, self1, q, k.
  split; [reflexivity|]. split; [exact Hrun|].
  split; [exact Hq|]. split; [exact Hd|]. split; [exact Hk|exact Hdk].
Defined.

(** ** The metrics extractor: [find_font_metrics] *)

(** The normalized ascent and descent add up to 1.0 only up to the
    rounding of binary64: on typographic values 600 and -343 with an em
    of 1000 the sum is the largest float below 1. *)
Lemma find_font_metrics_rounding :
  exists m,
    find_font_metrics Ex.rounding_font = Ok m
    /\ PrimFloat.add (_ascent m) (_descent m) = 0x1.fffffffffffffp-1%float
    /\ PrimFloat.eqb (PrimFloat.add (_ascent m) (_descent m)) PrimFloat.one
       = false.
Proof.
  eexists. split; [vm_compute; reflexivity|]. split; vm_compute; reflexivity.
Qed.

(** ** The metrics extractor: the choice of a sub-face of a collection *)

(** On a non-empty table the nearest-match lookup returns a value. *)
Lemma nearest_val_returns {V} (dictv : Py.dict Z V) (q : Z) :
  dictv <> [] -> exists v, nearest_val dictv q = Ok v.
Proof.
  intros Hne. destruct dictv as [|[k0 v0] d]; [congruence|].
  unfold nearest_val, Py.keys. simpl map. cbn [Py.min_key rbind].
  set (f := fun x : Z => Z.abs (x - q)).
  destruct (min_scan_first f (map fst d) k0) as (i & Hi & _ & Hfirst).
  set (k := Py.min_scan f k0 (map fst d)) in *.
  change (k0 :: map fst d) with (map fst ((k0, v0) :: d)) in Hi, Hfirst.
  rewrite list_lookup_fmap in Hi.
  destruct (((k0, v0) :: d) !! i) as [[k1 v1]|] eqn:Hentry; [|discriminate].
  simpl in Hi. injection Hi as Hk. subst k1.
  exists v1. unfold Py.getitem.
  rewrite (get_first_entry ((k0, v0) :: d) i k v1 Hentry); [reflexivity|].
  intros j k' v' Hj Hl Heq.
  assert (Hlt : f k < f k').
  { apply (Hfirst j); [exact Hj|].
    rewrite list_lookup_fmap.
    transitivity (fst <$> Some (k', v')); [f_equal; exact Hl|reflexivity]. }
  subst k'. lia.
Qed.

Lemma fcval_is_true (v : fcval) (n : Z) : fcval_is v n = true <-> v = VInt n.
Proof.
  destruct v as [m|s|l]; simpl.
  - rewrite Z.eqb_eq. split; [intros ->; reflexivity|congruence].
  - split; discriminate.
  - split; discriminate.
Qed.

Lemma width_class_known (w : Z) :
  1 <= w <= 9 -> exists wdt, Py.getitem OS2WDT_to_FCWDT w = Ok wdt.
Proof.
  intros Hw.
  assert (Hcases : w = 1 \/ w = 2 \/ w = 3 \/ w = 4 \/ w = 5 \/ w = 6
                   \/ w = 7 \/ w = 8 \/ w = 9) by lia.
  destruct Hcases as [-> | [-> | [-> | [-> | [-> | [-> | [-> | [-> | ->]]]]]]]];
    eexists; reflexivity.
Qed.

(** The three matches computed for a classified sub-face are the three
    criteria: weight, width, and italic flag against slant. *)
Lemma matches_criteria (found : Found) (tfont : TTFont) (os2 : OS2Table) :
  OS2 tfont = Some os2 ->
  1 <= usWidthClass os2 <= 9 ->
  exists b1 b2 b3,
    matches found tfont = Ok [b1; b2; b3]
    /\ (b1 = true <-> weight_matches found os2)
    /\ (b2 = true <-> width_matches found os2)
    /\ (b3 = true <-> slant_matches found tfont os2).
Proof.
  intros Hos2 Hw. unfold matches, os2_table. rewrite Hos2. cbn [rbind].
  destruct (nearest_val_returns OS2WGT_to_FCWGT (usWeightClass os2)) as [w Hwgt];
    [discriminate|].
  destruct (width_class_known (usWidthClass os2) Hw) as [wdt Hwdt].
  rewrite Hwgt, Hwdt. cbn [rbind].
  set (sub := match subfamily_name tfont with
              | Some s => s
              | None => "Unknown"%string
              end).
  set (it := negb (Z.land (fsSelection os2) 1 =? 0)
             || Py.contains "italic" (Py.lower sub)
             || Py.contains "oblique" (Py.lower sub)).
  assert (Hit : it = true <-> italic_flag tfont os2).
  { unfold it, italic_flag. fold sub.
    rewrite !orb_true_iff, negb_true_iff, Z.eqb_neq. split.
    - intros [[Hbit|Hi]|Ho]; [left; exact Hbit| |].
      + right. exists sub. split; [reflexivity|left; exact Hi].
      + right. exists sub. split; [reflexivity|right; exact Ho].
    - intros [Hbit|(s & -> & [Hi|Ho])]; auto. }
  do 3 eexists. split; [reflexivity|]. split; [|split].
  - rewrite fcval_is_true. unfold weight_matches. rewrite Hwgt. split.
    + intros Hv. exists w. split; [reflexivity|exact Hv].
    + intros (w' & Hw' & Hv). congruence.
  - rewrite fcval_is_true. unfold width_matches. rewrite Hwdt. split.
    + intros Hv. exists wdt. split; [reflexivity|exact Hv].
    + intros (w' & Hw' & Hv). congruence.
  - unfold slant_matches.
    rewrite orb_true_iff, !andb_true_iff, orb_true_iff, negb_true_iff.
    rewrite !fcval_is_true, <- Hit, <- not_true_iff_false. reflexivity.
Qed.

(** A score counts at most three matches. *)
Lemma num_matched_le_3 (found : Found) (tfont : TTFont) :
  (num_matched found tfont <= 3)%nat.
Proof.
  unfold num_matched, matches.
  destruct (os2_table tfont) as [os2|e]; cbn [rbind]; [|lia].
  destruct (nearest_val OS2WGT_to_FCWGT (usWeightClass os2)) as [w|e];
    cbn [rbind]; [|lia].
  destruct (Py.getitem OS2WDT_to_FCWDT (usWidthClass os2)) as [wdt|e];
    cbn [rbind]; [|lia].
  unfold Py.sum_bools. simpl.
  repeat match goal with |- context [if ?b then _ else _] => destruct b end;
    simpl; lia.
Qed.

(** The scan of the sub-faces, when every sub-face that no perfect score
    precedes is classified: either no sub-face has a perfect score and
    all scores are collected, or the scan stops at the first sub-face with
    a perfect score. *)
Lemma scan_faces_spec (found : Found) (tfonts : list TTFont) :
  (forall j tf, tfonts !! j = Some tf ->
     (forall k tf', (k < j)%nat -> tfonts !! k = Some tf' ->
        num_matched found tf' <> 3%nat) ->
     classified tf) ->
  forall acc,
  ((forall tf, tf ∈ tfonts -> num_matched found tf <> 3%nat)
   /\ scan_faces found tfonts acc
      = Ok (acc ++ map (num_matched found) tfonts, None))
  \/ (exists i tf,
        tfonts !! i = Some tf
        /\ num_matched found tf = 3%nat
        /\ (forall j tf', (j < i)%nat -> tfonts !! j = Some tf' ->
              num_matched found tf' <> 3%nat)
        /\ scan_faces found tfonts acc
           = Ok (acc ++ map (num_matched found) (take (S i) tfonts), Some tf)).
Proof.
  induction tfonts as [|tf tfonts IH]; intros Hvis acc.
  - left. split.
    + intros tf Hin. apply elem_of_nil in Hin. contradiction.
    + simpl. rewrite app_nil_r. reflexivity.
  - simpl scan_faces.
    destruct (Hvis 0%nat tf eq_refl) as (os2 & Hos2 & Hw); [intros; lia|].
    destruct (matches_criteria found tf os2 Hos2 Hw) as (b1 & b2 & b3 & Hm & _).
    assert (Hscore : num_matched found tf = Py.sum_bools [b1; b2; b3])
      by (unfold num_matched; rewrite Hm; reflexivity).
    rewrite Hm. cbn [rbind]. rewrite <- Hscore.
    destruct (num_matched found tf =? 3)%nat eqn:H3.
    + apply Nat.eqb_eq in H3. right. exists 0%nat, tf.
      split; [reflexivity|]. split; [exact H3|]. split; [intros; lia|].
      reflexivity.
    + apply Nat.eqb_neq in H3.
      destruct (IH) with (acc := acc ++ [num_matched found tf])
        as [[Hall Hrun]|(i & tf' & Hi & Hs & Hbefore & Hrun)].
      { intros j tf' Hj Hprev. apply (Hvis (S j) tf' Hj).
        intros [|k] tf'' Hk Hl; simpl in Hl.
        - injection Hl as <-. exact H3.
        - apply (Hprev k); [lia|exact Hl]. }
      * left. split.
        -- intros tf' Hin. apply elem_of_cons in Hin as [->|Hin]; auto.
        -- rewrite Hrun. simpl. rewrite <- app_assoc. reflexivity.
      * right. exists (S i), tf'. split; [exact Hi|]. split; [exact Hs|].
        split.
        -- intros [|j] tf'' Hj Hl; simpl in Hl.
           ++ injection Hl as <-. exact H3.
           ++ apply (Hbefore j); [lia|exact Hl].
        -- rewrite Hrun. simpl. rewrite <- app_assoc. reflexivity.
Qed.

(** [max] returns an element of the list that no element exceeds. *)
Lemma max_scan_spec (l : list nat) : forall best,
  Py.max_scan best l ∈ best :: l
  /\ forall x, x ∈ best :: l -> (x <= Py.max_scan best l)%nat.
Proof.
  induction l as [|y l IH]; intros best; simpl.
  - split; [left|]. intros x Hx. apply list_elem_of_singleton in Hx. lia.
  - destruct (Nat.ltb_spec best y) as [Hlt|Hge].
    + destruct (IH y) as [Hin Hmax]. split; [right; exact Hin|].
      intros x Hx. apply elem_of_cons in Hx as [->|Hx]; [|auto].
      specialize (Hmax y ltac:(left)). lia.
    + destruct (IH best) as [Hin Hmax]. split.
      * apply elem_of_cons in Hin as [Heq|Hin]; [rewrite Heq; left|].
        right; right; exact Hin.
      * intros x Hx. apply elem_of_cons in Hx as [->|Hx]; [apply Hmax; left|].
        apply elem_of_cons in Hx as [->|Hx].
        -- specialize (Hmax best ltac:(left)). lia.
        -- apply Hmax. right. exact Hx.
Qed.

(** The sub-faces at the maximum, when all scores are at hand. *)
Lemma faces_at_max_spec (found : Found) (mx : nat) (tfonts : list TTFont) :
  forall (before : list nat),
  faces_at_max tfonts (before ++ map (num_matched found) tfonts)
    (length before) mx
  = Ok (List.filter (fun tf => (num_matched found tf =? mx)%nat) tfonts).
Proof.
  induction tfonts as [|tf tfonts IH]; intros before; simpl; [reflexivity|].
  rewrite lookup_app_r by reflexivity. rewrite Nat.sub_diag. simpl.
  specialize (IH (before ++ [num_matched found tf])).
  rewrite <- app_assoc, length_app in IH. simpl in IH.
  rewrite Nat.add_1_r in IH. rewrite IH. simpl.
  destruct (num_matched found tf =? mx)%nat; reflexivity.
Qed.

(** The head of a filtered list is the first element that passes. *)
Lemma filter_head {A} (P : A -> bool) (l : list A) (x : A) (rest : list A) :
  List.filter P l = x :: rest ->
  exists i,
    l !! i = Some x /\ P x = true
    /\ forall j y, (j < i)%nat -> l !! j = Some y -> P y = false.
Proof.
  induction l as [|a l IH]; simpl; [discriminate|].
  destruct (P a) eqn:Ha.
  - intros H. injection H as -> _. exists 0%nat.
    split; [reflexivity|]. split; [exact Ha|]. intros; lia.
  - intros H. destruct (IH H) as (i & Hi & Hx & Hbefore).
    exists (S i). split; [exact Hi|]. split; [exact Hx|].
    intros [|j] y Hj Hl; simpl in Hl.
    + injection Hl as <-. exact Ha.
    + apply (Hbefore j); [lia|exact Hl].
Qed.

Lemma max_spec (l : list nat) :
  l <> [] ->
  exists mx, Py.max l = Ok mx /\ mx ∈ l /\ forall x, x ∈ l -> (x <= mx)%nat.
Proof.
  destruct l as [|x l]; [congruence|]. intros _.
  exists (Py.max_scan x l). split; [reflexivity|]. apply max_scan_spec.
Qed.


(** The sub-face chosen in a collection: no sub-face has a higher
    score, and every sub-face before it has a strictly lower one. *)
Lemma font_from_collection_choice (found : Found) (tfonts : list TTFont) :
  tfonts <> [] ->
  (forall j tf, tfonts !! j = Some tf ->
     (forall k tf', (k < j)%nat -> tfonts !! k = Some tf' ->
        num_matched found tf' <> 3%nat) ->
     classified tf) ->
  exists i tfont,
    tfonts !! i = Some tfont
    /\ font_from_collection found (FaceCollection tfonts) = Ok tfont
    /\ (forall j tf, tfonts !! j = Some tf ->
          (num_matched found tf <= num_matched found tfont)%nat)
    /\ (forall j tf, (j < i)%nat -> tfonts !! j = Some tf ->
          (num_matched found tf < num_matched found tfont)%nat).
Proof.
  intros Hne Hvis. unfold font_from_collection.
  destruct (scan_faces_spec found tfonts Hvis [])
    as [[Hno Hrun]|(i & tf & Hi & Hs & Hbefore & Hrun)];
    rewrite Hrun; cbn [rbind fst snd app].
  - destruct (max_spec (map (num_matched found) tfonts)) as (mx & -> & Hin & Hmax).
    { destruct tfonts; [congruence|discriminate]. }
    cbn [rbind].
    apply (list_elem_of_fmap_1 (num_matched found)) in Hin
      as (tfm & Hmx & Htfm).
    assert (Hlt : (mx <? 3)%nat = true).
    { apply Nat.ltb_lt. specialize (Hno tfm Htfm).
      pose proof (num_matched_le_3 found tfm). lia. }
    rewrite Hlt.
    pose proof (faces_at_max_spec found mx tfonts []) as Hfm.
    cbn [app length] in Hfm. rewrite Hfm. cbn [rbind].
    destruct (List.filter (fun tf => (num_matched found tf =? mx)%nat) tfonts)
      as [|x rest] eqn:Hf.
    + exfalso. assert (Hx : In tfm (List.filter
                 (fun tf => (num_matched found tf =? mx)%nat) tfonts)).
      { apply filter_In. split; [apply list_elem_of_In; exact Htfm|].
        apply Nat.eqb_eq. congruence. }
      rewrite Hf in Hx. exact Hx.
    + destruct (filter_head _ tfonts x rest Hf) as (i & Hi & Hx & Hfirst).
      apply Nat.eqb_eq in Hx. exists i, x. split; [exact Hi|].
      split; [reflexivity|]. split.
      * intros j tf Hj. rewrite Hx. apply Hmax.
        apply list_elem_of_fmap_2, (list_elem_of_lookup_2 _ j), Hj.
      * intros j tf Hj Hl. specialize (Hfirst j tf Hj Hl).
        apply Nat.eqb_neq in Hfirst.
        assert ((num_matched found tf <= mx)%nat).
        { apply Hmax, list_elem_of_fmap_2, (list_elem_of_lookup_2 _ j), Hl. }
        lia.
  - destruct (max_spec (map (num_matched found) (take (S i) tfonts)))
      as (mx & -> & Hin & Hmax).
    { destruct tfonts; [congruence|discriminate]. }
    cbn [rbind].
    assert (Hge : (mx <? 3)%nat = false).
    { apply Nat.ltb_ge. rewrite <- Hs. apply Hmax.
      apply list_elem_of_fmap_2, (list_elem_of_lookup_2 _ i).
      rewrite lookup_take_lt by lia. exact Hi. }
    rewrite Hge. exists i, tf. split; [exact Hi|]. split; [reflexivity|].
    split.
    + intros j tf' Hj. rewrite Hs. apply num_matched_le_3.
    + intros j tf' Hj Hl. rewrite Hs.
      specialize (Hbefore j tf' Hj Hl).
      pose proof (num_matched_le_3 found tf'). lia.
Qed.

(** C8. When the file of the found face opens as a collection,
    [font_from_fc] scores a sub-face by three boolean matches: the
    fontconfig weight nearest to its weight class is the requested
    weight, the fontconfig width of its width class is the requested
    width, and its italic flag is consistent with the requested slant.
    It returns the sub-face with the highest score, the first one among
    those with that score; in particular the first sub-face when the
    highest score is zero. The sub-faces that no perfect score precedes
    are the ones scored, and have to be classified (an [OS/2] table with a
    width class from 1 to 9). *)
Theorem font_from_fc_collection_choice (open_file : string -> FontFile)
    (instantiateVariableFont : TTFont -> Py.dict string fcval -> result TTFont)
    (found : Found) (tfonts : list TTFont) :
  open_file (FILE found) = FaceCollection tfonts ->
  tfonts <> [] ->
  (forall j tf, tfonts !! j = Some tf ->
     (forall k tf', (k < j)%nat -> tfonts !! k = Some tf' ->
        num_matched found tf' <> 3%nat) ->
     classified tf) ->
  exists i tfont,
    tfonts !! i = Some tfont
    /\ font_from_fc open_file instantiateVariableFont found = Ok tfont
    /\ (forall tf os2,
          tf ∈ tfonts -> OS2 tf = Some os2 -> 1 <= usWidthClass os2 <= 9 ->
          exists b1 b2 b3,
            matches found tf = Ok [b1; b2; b3]
            /\ (b1 = true <-> weight_matches found os2)
            /\ (b2 = true <-> width_matches found os2)
            /\ (b3 = true <-> slant_matches found tf os2)
            /\ num_matched found tf
               = ((if b1 then 1 else 0) + (if b2 then 1 else 0)
                  + (if b3 then 1 else 0))%nat)
    /\ (forall j tf, tfonts !! j = Some tf ->
          (num_matched found tf <= num_matched found tfont)%nat)
    /\ (forall j tf, (j < i)%nat -> tfonts !! j = Some tf ->
          (num_matched found tf < num_matched found tfont)%nat)
    /\ (num_matched found tfont = 0%nat -> i = 0%nat).
Proof.
  intros Hopen Hne Hvis.
  destruct (font_from_collection_choice found tfonts Hne Hvis)
    as (i & tfont & Hi & Hrun & Hmax & Hfirst).
  exists i, tfont. split; [exact Hi|]. split.
  { unfold font_from_fc, font_from_single. rewrite Hopen. exact Hrun. }
  split.
  { intros tf os2 _ Hos2 Hw.
    destruct (matches_criteria found tf os2 Hos2 Hw)
      as (b1 & b2 & b3 & Hm & H1 & H2 & H3).
    exists b1, b2, b3. split; [exact Hm|]. split; [exact H1|].
    split; [exact H2|]. split; [exact H3|].
    unfold num_matched. rewrite Hm. unfold Py.sum_bools. simpl. lia. }
  split; [exact Hmax|]. split; [exact Hfirst|].
  intros Hzero. destruct i as [|i]; [reflexivity|].
  destruct tfonts as [|t0 rest]; [congruence|].
  specialize (Hfirst 0%nat t0 ltac:(lia) eq_refl). lia.
Qed.

Lemma ex_collection_classified :
  Forall classified Ex.collection /\ Forall classified Ex.collection_unrelated.
Proof.
  split; repeat constructor; eexists; (split; [reflexivity|simpl; lia]).
Qed.

(** A collection with scores 0, 2, 2, 2 for a bold upright face of
    normal width: the second sub-face is chosen, whose width and slant
    match and whose weight does not. A collection with scores 0, 0: the
    first sub-face is chosen. *)
Lemma font_from_fc_collection_choice_witness :
  (exists i tfont,
     Ex.collection !! i = Some tfont
     /\ font_from_fc Ex.open_file Ex.instantiateVariableFont
          (Ex.in_collection "family.ttc") = Ok tfont
     /\ tfont = Ex.with_style 400 5 0 "Regular"
     /\ num_matched (Ex.in_collection "family.ttc") tfont = 2%nat
     /\ (exists os2,
           OS2 tfont = Some os2
           /\ ~ weight_matches (Ex.in_collection "family.ttc") os2
           /\ width_matches (Ex.in_collection "family.ttc") os2
           /\ slant_matches (Ex.in_collection "family.ttc") tfont os2)
     /\ forall j tf, (j < i)%nat -> Ex.collection !! j = Some tf ->
          (num_matched (Ex.in_collection "family.ttc") tf
           < num_matched (Ex.in_collection "family.ttc") tfont)%nat)
  /\ (exists tfont,
        Ex.collection_unrelated !! 0%nat = Some tfont
        /\ font_from_fc Ex.open_file Ex.instantiateVariableFont
             (Ex.in_collection "other.ttc") = Ok tfont
        /\ num_matched (Ex.in_collection "other.ttc") tfont = 0%nat).
Proof.
  assert (Hvis : forall found tfonts, Forall classified tfonts ->
            forall j tf, tfonts !! j = Some tf ->
            (forall k tf', (k < j)%nat -> tfonts !! k = Some tf' ->
               num_matched found tf' <> 3%nat) ->
            classified tf).
  { intros found tfonts Hall j tf Hj _. rewrite Forall_forall in Hall.
    apply Hall, (list_elem_of_lookup_2 _ j), Hj. }
  split.
  - destruct (font_from_fc_collection_choice Ex.open_file
                Ex.instantiateVariableFont (Ex.in_collection "family.ttc")
                Ex.collection eq_refl ltac:(discriminate)
                (Hvis _ _ (proj1 ex_collection_classified)))
      as (i & tfont & Hi & Hrun & Hcrit & _ & Hfirst & _).
    assert (Hc : font_from_fc Ex.open_file Ex.instantiateVariableFont
                   (Ex.in_collection "family.ttc")
                 = Ok (Ex.with_style 400 5 0 "Regular"))
      by (vm_compute; reflexivity).
    assert (Ht : tfont = Ex.with_style 400 5 0 "Regular") by congruence.
    exists i, tfont. split; [exact Hi|]. split; [exact Hrun|].
    split; [exact Ht|]. split; [rewrite Ht; vm_compute; reflexivity|].
    split; [|exact Hfirst].
    destruct (OS2 tfont) as [os2|] eqn:Hos2; [|rewrite Ht in Hos2; discriminate].
    exists os2. split; [reflexivity|].
    destruct (Hcrit tfont os2) as (b1 & b2 & b3 & Hm & H1 & H2 & H3 & _).
    { apply (list_elem_of_lookup_2 _ i), Hi. }
    { exact Hos2. }
    { rewrite Ht in Hos2. injection Hos2 as <-. simpl. lia. }
    assert (Hm' : matches (Ex.in_collection "family.ttc") tfont
                  = Ok [false; true; true])
      by (rewrite Ht; vm_compute; reflexivity).
    assert (Hb : b1 = false /\ b2 = true /\ b3 = true).
    { rewrite Hm in Hm'. injection Hm' as -> -> ->. auto. }
    destruct Hb as (-> & -> & ->).
    split; [intros Hwm; apply H1 in Hwm; discriminate|].
    split; [apply H2|apply H3]; reflexivity.
  - destruct (font_from_fc_collection_choice Ex.open_file
                Ex.instantiateVariableFont (Ex.in_collection "other.ttc")
                Ex.collection_unrelated eq_refl ltac:(discriminate)
                (Hvis _ _ (proj2 ex_collection_classified)))
      as (i & tfont & Hi & Hrun & _ & Hmax & _ & Hzero).
    assert (Hc : font_from_fc Ex.open_file Ex.instantiateVariableFont
                   (Ex.in_collection "other.ttc")
                 = Ok (Ex.with_style 300 3 1 "Light Condensed Italic"))
      by (vm_compute; reflexivity).
    assert (Ht : tfont = Ex.with_style 300 3 1 "Light Condensed Italic")
      by congruence.
    assert (Hs : num_matched (Ex.in_collection "other.ttc") tfont = 0%nat)
      by (rewrite Ht; vm_compute; reflexivity).
    rewrite (Hzero Hs) in Hi. exists tfont.
    split; [exact Hi|]. split; [exact Hrun|exact Hs].
Defined.
